(** * TensorNetworkQECC: the [TensorNetworkCode] facade over a tensor network

    A shallow embedding of [src/tensornetworkqecc/tensornetworkcode.py].

    The Python class [TensorNetworkCode] owns one [quimb] tensor network and
    offers contraction methods that clone the network, mutate the clone and
    return it.  Python objects are references, so the embedding keeps an
    explicit store of tensor objects and of network objects; every method is
    a computation in a state-and-exception monad over that store.  *)

From Stdlib Require Import ZArith List String Lia.
From Stdlib Require PrimFloat.
From stdpp Require Import base list strings.
Import ListNotations.

Local Open Scope Z_scope.
Local Open Scope nat_scope.

(** ** Store, exceptions and the monad of Python computations *)

(** A reference to a Python object: an index in the store. *)
Definition loc := nat.

(** The exceptions the modelled code can raise.  [ValueError] is raised by
    the facade itself, with a message that quotes the missing label;
    [KeyError] by a dictionary lookup inside the network library, with the
    missing label as its key. *)
Inductive exn : Type :=
| ValueError (msg : string)
| KeyError (key : string).

Inductive result (A : Type) : Type :=
| Ok (a : A)
| Raise (e : exn).
Arguments Ok {A} a.
Arguments Raise {A} e.

(** Modelled from the spec: the dense arrays are an external collaborator
    (section 6).  The entries of an array are numbers of one dtype, and
    array contraction only adds and multiplies them.  Two dtypes are
    modelled: exact integers, and IEEE binary64 numbers ([float64], the
    dtype of the arrays of the example script). *)
Class Entry (R : Type) : Type := mk_Entry {
  entry_zero : R;
  entry_one : R;
  entry_add : R -> R -> R;
  entry_mul : R -> R -> R
}.

#[global] Instance exact_entries : Entry Z :=
  {| entry_zero := 0%Z; entry_one := 1%Z;
     entry_add := Z.add; entry_mul := Z.mul |}.

Definition float64_entries : Entry PrimFloat.float :=
  {| entry_zero := PrimFloat.zero; entry_one := PrimFloat.one;
     entry_add := PrimFloat.add; entry_mul := PrimFloat.mul |}.

(** A numpy array: its shape and its entries in row-major order.  Unless
    said otherwise the entries are exact integers. *)
Record ndarray_of (R : Type) : Type :=
  mk_ndarray { shape : list nat; buf : list R }.
Arguments mk_ndarray {R} shape buf.
Arguments shape {R} n.
Arguments buf {R} n.
Notation ndarray := (ndarray_of Z).

(** Modelled from the spec: [quimb.tensor.Tensor] is not part of this
    repository.  Following section 3 of the specification, a tensor carries
    its array, one leg label per array dimension and a set of display
    tags. *)
Record Tensor_of (R : Type) : Type := mk_Tensor {
  data : ndarray_of R;
  inds : list string;
  tags : list string
}.
Arguments mk_Tensor {R} data inds tags.
Arguments data {R} t.
Arguments inds {R} t.
Arguments tags {R} t.
Notation Tensor := (Tensor_of Z).

(** What a dangling reference reads as; a well-formed store has none. *)
#[global] Instance Tensor_inhabited : Inhabited Tensor :=
  populate (mk_Tensor (mk_ndarray [] []) [] []).

(** The store: tensor objects and network objects.  A network object holds
    the references of its tensors, in insertion order. *)
Record heap : Type := mk_heap {
  tens : list Tensor;
  nets : list (list loc)
}.

Definition M (A : Type) : Type := heap -> result A * heap.

Definition ret {A} (a : A) : M A := fun h => (Ok a, h).

Definition raise {A} (e : exn) : M A := fun h => (Raise e, h).

Definition bind {A B} (m : M A) (f : A -> M B) : M B :=
  fun h =>
    match m h with
    | (Ok a, h') => f a h'
    | (Raise e, h') => (Raise e, h')
    end.

Declare Scope py_scope.
Delimit Scope py_scope with py.
Notation "x <- m ;; k" := (bind m (fun x => k))
  (at level 100, m at next level, right associativity) : py_scope.
Notation "m ;;; k" := (bind m (fun _ => k))
  (at level 100, right associativity) : py_scope.
Local Open Scope py_scope.

(** [for x in xs: body x] *)
Fixpoint for_each {A} (xs : list A) (body : A -> M unit) : M unit :=
  match xs with
  | [] => ret tt
  | x :: xs' => body x ;;; for_each xs' body
  end.

(** [[f x for x in xs]] *)
Fixpoint map_each {A B} (xs : list A) (f : A -> M B) : M (list B) :=
  match xs with
  | [] => ret []
  | x :: xs' => y <- f x ;; ys <- map_each xs' f ;; ret (y :: ys)
  end.

(** Reading the store without changing it. *)
Definition inspect {A} (f : heap -> A) : M A := fun h => (Ok (f h), h).

Definition deref (h : heap) (l : loc) : Tensor := tens h !!! l.

Definition net_locs (h : heap) (n : loc) : list loc := nets h !!! n.

Definition alloc_tensor (t : Tensor) : M loc :=
  fun h => (Ok (length (tens h)), mk_heap (tens h ++ [t]) (nets h)).

Definition alloc_net (ls : list loc) : M loc :=
  fun h => (Ok (length (nets h)), mk_heap (tens h) (nets h ++ [ls])).

Definition store_tensor (l : loc) (t : Tensor) : M unit :=
  fun h => (Ok tt, mk_heap (<[l := t]> (tens h)) (nets h)).

Definition store_net (n : loc) (ls : list loc) : M unit :=
  fun h => (Ok tt, mk_heap (tens h) (<[n := ls]> (nets h))).

(** ** Array contraction *)

Local Open Scope Z_scope.

(** Row-major offset of a multi-index. *)
Definition ravel (shp idx : list nat) : nat :=
  fold_left (fun acc p => (acc * snd p + fst p)%nat) (combine idx shp) 0%nat.

Definition item {R} `{Entry R} (a : ndarray_of R) (idx : list nat) : R :=
  nth (ravel (shape a) idx) (buf a) entry_zero.

Definition zsum {R} `{Entry R} (zs : list R) : R :=
  fold_right entry_add entry_zero zs.

Definition occurs {R} (l : string) (t : Tensor_of R) : bool :=
  existsb (String.eqb l) (inds t).

(** Every axis of every input, with its label and its size. *)
Definition axes {R} (ts : list (Tensor_of R)) : list (string * nat) :=
  concat (map (fun t => combine (inds t) (shape (data t))) ts).

Definition ind_size {R} (ts : list (Tensor_of R)) (l : string) : nat :=
  match find (fun p => String.eqb l (fst p)) (axes ts) with
  | Some p => snd p
  | None => 0%nat
  end.

Fixpoint assoc {V} (env : list (string * V)) (l : string) : option V :=
  match env with
  | [] => None
  | (k, v) :: env' => if String.eqb l k then Some v else assoc env' l
  end.

(** The legs of all the tensors, one tensor after the other. *)
Definition all_inds {R} (ts : list (Tensor_of R)) : list string :=
  concat (map inds ts).

(** The labels of a list, each once, in the order of their first
    occurrence. *)
Fixpoint uniq (ls : list string) : list string :=
  match ls with
  | [] => []
  | l :: ls' => l :: filter (fun x => negb (String.eqb x l)) (uniq ls')
  end.

(** How many of the tensors hold the label. *)
Definition n_owners {R} (ts : list (Tensor_of R)) (l : string) : nat :=
  length (filter (fun t => occurs l t) ts).

(** The value an assignment gives to a label; the latest binding of a label
    comes first. *)
Definition value (e : list (string * nat)) (l : string) : nat :=
  default 0%nat (assoc e l).

(** The product of one entry of each input, each input read at the values
    of its own legs. *)
Fixpoint term {R} `{Entry R} (e : list (string * nat))
    (ts : list (Tensor_of R)) : R :=
  match ts with
  | [] => entry_one
  | t :: ts' =>
      entry_mul (item (data t) (map (value e) (inds t))) (term e ts')
  end.

(** The sum of [f] over all values of the labels [sum_inds]. *)
Fixpoint esum {R} `{Entry R} (size : string -> nat) (sum_inds : list string)
    (e : list (string * nat)) (f : list (string * nat) -> R) : R :=
  match sum_inds with
  | [] => f e
  | l :: rest =>
      zsum (map (fun i => esum size rest ((l, i) :: e) f) (seq 0 (size l)))
  end.

(** The entries of an array with axes [out_inds], in row-major order. *)
Fixpoint fill {R} (size : string -> nat) (out_inds : list string)
    (e : list (string * nat)) (f : list (string * nat) -> R) : list R :=
  match out_inds with
  | [] => [f e]
  | l :: rest =>
      flat_map (fun i => fill size rest ((l, i) :: e) f) (seq 0 (size l))
  end.

(** The labels a contraction sums over: those of the inputs that are not
    legs of the result. *)
Definition summed_inds {R} (ts : list (Tensor_of R))
    (output_inds : list string) : list string :=
  filter (fun l => negb (existsb (String.eqb l) output_inds))
         (uniq (all_inds ts)).

Module array.

(** Modelled from the spec: the dense-array contraction primitive is an
    external collaborator (sections 6 and 9); the core only selects which
    tensors take part and which legs the result has.  Every label of the
    inputs that is not a leg of the result is summed over; a label that
    stays is one axis of the result, however many of the inputs carry it
    (section 4.2: all dimensions with that name are taken together).  The
    merged tensor carries the tags of all its inputs.  Arrays whose sizes
    disagree on a shared label are outside the model. *)
Definition tensor_contract {R} `{Entry R} (ts : list (Tensor_of R))
    (output_inds : list string) : Tensor_of R :=
  let size := ind_size ts in
  let summed := summed_inds ts output_inds in
  {| data :=
       {| shape := map size output_inds;
          buf := fill size output_inds []
                      (fun e => esum size summed e (fun e' => term e' ts)) |};
     inds := output_inds;
     tags := remove_dups (concat (map tags ts)) |}.

End array.
Import array.

Local Open Scope nat_scope.

(** Modelled from the spec: the legs of the tensor that replaces the
    tensors [sel] merged out of the network [net].  A leg is summed away
    when all the tensors holding it are merged, two or more of them
    (sections 4.2 and 4.3).  It stays when a tensor outside the merge holds
    it too (section 4.2: only all dimensions of one name are summed
    together), or when it is an open leg, held by one tensor only
    (section 3); such a tensor may carry it twice (the transient state of
    section 4.1), and the leg is then one axis of the result. *)
Definition contracted_inds {R} (sel net : list (Tensor_of R)) : list string :=
  filter (fun ix => negb (n_owners sel ix =? n_owners net ix)
                    || (n_owners net ix =? 1))
         (uniq (all_inds sel)).

(** The open legs of a network: the labels held by exactly one tensor
    (section 3). *)
Definition outer_inds {R} (net : list (Tensor_of R)) : list string :=
  filter (fun ix => n_owners net ix =? 1) (uniq (all_inds net)).


(** ** The network library *)

(** [if b: m] *)
Definition when_ (b : bool) (m : M unit) : M unit := if b then m else ret tt.

(** Modelled from the spec: [Tensor.copy] of the network library, which is
    not part of this repository.  The copy is a new tensor object with the
    same array, legs and tags (section 4.2, "deep-enough clone"). *)
Definition Tensor_copy (t : loc) : M loc :=
  v <- inspect (fun h => deref h t) ;; alloc_tensor v.

(** Modelled from the spec: [Tensor.reindex_], the in-place leg renaming of
    section 4.1 ([rename_leg]).  Every leg that is a key of [index_map] is
    replaced by its image; the array is not altered. *)
Definition reindex_ (t : loc) (index_map : list (string * string)) : M unit :=
  v <- inspect (fun h => deref h t) ;;
  store_tensor t {| data := data v;
                    inds := map (fun ind => default ind (assoc index_map ind)) (inds v);
                    tags := tags v |}.

Module TensorNetwork.

(** Modelled from the spec: [quimb.tensor.TensorNetwork] is not part of this
    repository.  Following sections 3 and 4.2 of the specification, a network
    is a mutable collection of tensors, and [ind_map] is derived from it:
    each leg label is mapped to the tensors that currently expose it. *)
Definition new (ts : list loc) : M loc :=
  ls <- map_each ts Tensor_copy ;; alloc_net ls.

(** Modelled from the spec: [copy()] of section 4.2, a clone whose tensors
    are new objects. *)
Definition copy (tn : loc) : M loc :=
  ls <- inspect (fun h => net_locs h tn) ;; new ls.

(** Modelled from the spec: the [tensors] attribute, the current tensor
    collection. *)
Definition tensors (tn : loc) : M (list loc) :=
  inspect (fun h => net_locs h tn).

(** Whether the tensor object [l] exposes the label. *)
Definition has_ind (h : heap) (ind : string) (l : loc) : bool :=
  occurs ind (deref h l).

(** The tensors of the network that expose the label, in network order. *)
Definition owners (h : heap) (tn : loc) (ind : string) : list loc :=
  filter (fun l => has_ind h ind l) (net_locs h tn).

(** Modelled from the spec: the [ind_map] attribute, from each leg label to
    the tensors exposing it (section 3). *)
Definition ind_map (h : heap) (tn : loc) : list (string * list loc) :=
  map (fun ind => (ind, owners h tn ind))
      (remove_dups (concat (map (fun l => inds (deref h l)) (net_locs h tn)))).

(** [ind in tn.ind_map], on the derived map. *)
Definition ind_in_map (tn : loc) (ind : string) : M bool :=
  inspect (fun h => bool_decide (is_Some (assoc (ind_map h tn) ind))).

(** Modelled from the spec: the legs of the tensor that will replace the
    tensors [tids], read off [ind_map] (see [contracted_inds]). *)
Definition compute_contracted_inds (tn : loc) (tids : list loc)
    : M (list string) :=
  inspect (fun h =>
    let ixs := concat (map (fun l => inds (deref h l)) tids) in
    filter (fun ix =>
              negb (length (filter (fun l => has_ind h ix l) tids)
                    =? length (owners h tn ix))
              || (length (owners h tn ix) =? 1))
           (uniq ixs)).

(** Modelled from the spec: [contract_ind(label)] of section 4.2.  All
    tensors exposing the label are merged into one new tensor by the array
    contraction primitive; the new tensor replaces its inputs in the
    collection.  A label that is not in [ind_map] is a failed dictionary
    lookup, which identifies the missing label. *)
Definition contract_ind (tn : loc) (ind : string) : M unit :=
  tids <- inspect (fun h => assoc (ind_map h tn) ind) ;;
  match tids with
  | None => raise (KeyError ind)
  | Some tids =>
      ts <- inspect (fun h => map (deref h) tids) ;;
      output_inds <- compute_contracted_inds tn tids ;;
      rest <- inspect (fun h => filter (fun l => negb (has_ind h ind l))
                                       (net_locs h tn)) ;;
      tnew <- alloc_tensor (tensor_contract ts output_inds) ;;
      store_net tn (rest ++ [tnew])
  end.

(** Modelled from the spec: [add_tensor(t)] of section 4.2.  A tensor is
    held by one network only (section 3): the network appends its own
    tensor object, with the array, legs and tags of [t]. *)
Definition add_tensor (tn : loc) (t : loc) : M unit :=
  l <- Tensor_copy t ;;
  ls <- inspect (fun h => net_locs h tn) ;;
  store_net tn (ls ++ [l]).

(** Modelled from the spec: the full contraction of section 4.2, the whole
    network evaluated as one expression; the result has the open legs of
    the network (section 3). *)
Definition contract (tn : loc) : M Tensor :=
  inspect (fun h =>
    let ts := map (deref h) (net_locs h tn) in
    tensor_contract ts (outer_inds ts)).

(** Modelled from the spec: one step of the full contraction of
    section 4.2, which contracts labels until none is shared by more than
    one tensor: the label is contracted when two or more tensors still
    hold it. *)
Definition contract_shared (tn : loc) (ind : string) : M unit :=
  shared <- inspect (fun h => 2 <=? length (owners h tn ind)) ;;
  when_ shared (contract_ind tn ind).

(** Modelled from the spec: the full contraction of section 4.2 carried out
    label by label, for a given contraction order.  The labels are taken in
    that order; one that is still shared is contracted with [contract_ind],
    and the tensors that are left at the end are merged into the result,
    which has the open legs of the network.  The steps run on a clone: the
    network itself is not altered. *)
Definition contract_in_order (tn : loc) (order : list string) : M Tensor :=
  output_inds <- inspect (fun h => outer_inds (map (deref h) (net_locs h tn))) ;;
  c <- copy tn ;;
  for_each order (contract_shared c) ;;;
  inspect (fun h => tensor_contract (map (deref h) (net_locs h c)) output_inds).

End TensorNetwork.

(** ** The facade: class [TensorNetworkCode] *)

Module TensorNetworkCode.

(** The constructor accepts a list of tensors or a dict of named tensors. *)
Inductive tensors_arg : Type :=
| TensorList (ts : list loc)
| TensorDict (d : list (string * loc)).

(** The attributes set by [__init__].  [structure] is an opaque object that
    the class stores and never reads. *)
Record t : Type := mk {
  tensors : tensors_arg;
  network : loc;
  structure : option loc
}.

Definition __init__ (tensors : tensors_arg) (network_structure : option loc)
    : M t :=
  net <- TensorNetwork.new
           (match tensors with
            | TensorDict d => map snd d
            | TensorList ts => ts
            end) ;;
  ret (mk tensors net network_structure).

Definition not_found (ind : string) : string :=
  "Index '" +:+ ind +:+ "' not found in the tensor network.".

Definition not_found_after_fusing (ind : string) : string :=
  "Index '" +:+ ind +:+ "' not found in the tensor network after fusing.".

Definition fuse_and_contract_indices (self : t) (ind1 ind2 : string) : M loc :=
  tn <- TensorNetwork.copy (network self) ;;
  ts <- TensorNetwork.tensors tn ;;
  for_each ts (fun t => reindex_ t [(ind2, ind1)]) ;;;
  present <- TensorNetwork.ind_in_map tn ind1 ;;
  when_ (negb present) (raise (ValueError (not_found_after_fusing ind1))) ;;;
  TensorNetwork.contract_ind tn ind1 ;;;
  ret tn.

Definition contract_two_indices (self : t) (ind1 ind2 : string) : M loc :=
  tn <- TensorNetwork.copy (network self) ;;
  present1 <- TensorNetwork.ind_in_map tn ind1 ;;
  when_ (negb present1) (raise (ValueError (not_found ind1))) ;;;
  present2 <- TensorNetwork.ind_in_map tn ind2 ;;
  when_ (negb present2) (raise (ValueError (not_found ind2))) ;;;
  TensorNetwork.contract_ind tn ind1 ;;;
  TensorNetwork.contract_ind tn ind2 ;;;
  ret tn.

Definition contract (self : t) : M Tensor :=
  TensorNetwork.contract (network self).

(** [contract(optimize=order)]: the keyword arguments go to the network as
    they are, and the contraction order is one of them. *)
Definition contract_in_order (self : t) (order : list string) : M Tensor :=
  TensorNetwork.contract_in_order (network self) order.

Definition contract_indices (self : t) (indices : list string) : M loc :=
  tn <- TensorNetwork.copy (network self) ;;
  for_each indices (fun ind =>
    present <- TensorNetwork.ind_in_map tn ind ;;
    when_ (negb present) (raise (ValueError (not_found ind))) ;;;
    TensorNetwork.contract_ind tn ind) ;;;
  ret tn.

Definition add_tensor (self : t) (tensor : loc) : M unit :=
  TensorNetwork.add_tensor (network self) tensor.

Definition get_tensors (self : t) : M (list loc) :=
  TensorNetwork.tensors (network self).

End TensorNetworkCode.

(** ** Observations of the store *)

(** The tensors of a network, as values. *)
Definition view (h : heap) (n : loc) : list Tensor :=
  map (deref h) (net_locs h n).

(** Whether some tensor of the network exposes the label. *)
Definition present (h : heap) (n : loc) (ind : string) : bool :=
  existsb (occurs ind) (view h n).

(** A network object without dangling or repeated references, as every
    network built by the library is. *)
Definition wf_net (h : heap) (n : loc) : Prop :=
  n < length (nets h) /\
  NoDup (net_locs h n) /\
  Forall (fun l => l < length (tens h)) (net_locs h n).

(** The objects below the two bounds are the same in both stores. *)
Definition same_below (bt bn : nat) (h h' : heap) : Prop :=
  take bt (tens h') = take bt (tens h) /\
  take bn (nets h') = take bn (nets h).

(** The store [h'] is [h] followed by newly allocated objects. *)
Definition extends (h h' : heap) : Prop :=
  (exists new_tensors, tens h' = tens h ++ new_tensors) /\
  (exists new_nets, nets h' = nets h ++ new_nets).

(** The values copied by a sequence of [Tensor_copy] calls. *)
Fixpoint copies (h : heap) (ls : list loc) : list Tensor :=
  match ls with
  | [] => []
  | l :: ls' =>
      deref h l :: copies (mk_heap (tens h ++ [deref h l]) (nets h)) ls'
  end.

(** One step of a contraction, on the tensor values of a network. *)
Definition contract_view {R} `{Entry R} (ind : string)
    (v : list (Tensor_of R)) : list (Tensor_of R) :=
  let sel := filter (fun t => occurs ind t) v in
  filter (fun t => negb (occurs ind t)) v
    ++ [tensor_contract sel (contracted_inds sel v)].

(** The leg renaming of [reindex_], on a tensor value. *)
Definition renamed (index_map : list (string * string)) (v : Tensor) : Tensor :=
  {| data := data v;
     inds := map (fun ind => default ind (assoc index_map ind)) (inds v);
     tags := tags v |}.

(** One iteration of the loop of [contract_indices]. *)
Definition contract_step (tn : loc) (ind : string) : M unit :=
  present <- TensorNetwork.ind_in_map tn ind ;;
  when_ (negb present)
        (raise (ValueError (TensorNetworkCode.not_found ind))) ;;;
  TensorNetwork.contract_ind tn ind.

(** The store after [copy] of network [n], and the reference of the clone. *)
Definition clone_store (h : heap) (n : loc) : heap :=
  mk_heap (tens h ++ copies h (net_locs h n))
          (nets h ++ [seq (length (tens h)) (length (net_locs h n))]).

Definition clone_ref (h : heap) : loc := length (nets h).

(** The three contraction methods of the facade. *)
Inductive call : Type :=
| ContractIndices (indices : list string)
| FuseAndContractIndices (ind1 ind2 : string)
| ContractTwoIndices (ind1 ind2 : string).

Definition run_call (self : TensorNetworkCode.t) (k : call) : M loc :=
  match k with
  | ContractIndices indices => TensorNetworkCode.contract_indices self indices
  | FuseAndContractIndices ind1 ind2 =>
      TensorNetworkCode.fuse_and_contract_indices self ind1 ind2
  | ContractTwoIndices ind1 ind2 =>
      TensorNetworkCode.contract_two_indices self ind1 ind2
  end.

(** Python's built-in exception classes: [KeyError] is a subclass of
    [LookupError], [ValueError] is not. *)
Definition is_LookupError (e : exn) : bool :=
  match e with
  | KeyError _ => true
  | ValueError _ => false
  end.

(** The method's own check looks the label up in the [ind_map] it consults
    and finds it missing: for [contract_indices] the clone's map when the
    label's turn comes, for [contract_two_indices] the clone's map at the
    two up-front checks, for [fuse_and_contract_indices] the clone's map
    after the renaming pass. *)
Definition check_finds_missing (self : TensorNetworkCode.t) (h : heap)
    (k : call) (ind : string) : Prop :=
  let tn := clone_ref h in
  let hc := clone_store h (TensorNetworkCode.network self) in
  match k with
  | ContractIndices indices =>
      exists pre post h1,
        indices = pre ++ ind :: post /\
        for_each pre (contract_step tn) hc = (Ok tt, h1) /\
        present h1 tn ind = false
  | ContractTwoIndices ind1 ind2 =>
      (ind = ind1 /\ present hc tn ind1 = false) \/
      (ind = ind2 /\ present hc tn ind1 = true /\ present hc tn ind2 = false)
  | FuseAndContractIndices ind1 ind2 =>
      ind = ind1 /\
      present (snd (for_each (net_locs hc tn)
                             (fun t => reindex_ t [(ind2, ind1)]) hc)) tn ind1
        = false
  end.

(** The end of the message of the error a method raises for a missing
    label. *)
Definition message_end (k : call) : string :=
  match k with
  | FuseAndContractIndices _ _ => " after fusing."
  | _ => "."
  end.

(** Renaming [b] to [a] on every tensor of the owned network and then
    calling [contract_indices([a])], as property P4 of the specification
    words it. *)
Definition rename_then_contract (self : TensorNetworkCode.t) (a b : string)
    : M loc :=
  ts <- TensorNetworkCode.get_tensors self ;;
  for_each ts (fun t => reindex_ t [(b, a)]) ;;;
  TensorNetworkCode.contract_indices self [a].

(** Two calls end alike: both return a network and the two networks hold
    the same tensors (arrays, legs and tags), or both raise. *)
Definition same_result (r1 r2 : result loc * heap) : Prop :=
  match r1, r2 with
  | (Ok t1, h1), (Ok t2, h2) => view h1 t1 = view h2 t2
  | (Raise _, _), (Raise _, _) => True
  | _, _ => False
  end.

(** The tensor store after a renaming pass over the tensors [ls]. *)
Definition rename_pass (m : list (string * string)) (ts : list Tensor)
    (ls : list loc) : list Tensor :=
  foldl (fun ts l => <[l := renamed m (ts !!! l)]> ts) ts ls.

(** What a caller sees of the end of a call: the tensors of the returned
    network, or the exception. *)
Definition outcome (r : result loc * heap) : result (list Tensor) :=
  match r with
  | (Ok tn, h) => Ok (view h tn)
  | (Raise e, _) => Raise e
  end.

(** The loop of [contract_indices] as a function on tensor values: each
    label is checked against the tensors at hand, then contracted. *)
Fixpoint contract_views (indices : list string) (v : list Tensor)
    : result (list Tensor) :=
  match indices with
  | [] => Ok v
  | ind :: rest =>
      if existsb (occurs ind) v then contract_views rest (contract_view ind v)
      else Raise (ValueError (TensorNetworkCode.not_found ind))
  end.

(** The three contraction methods as functions on the tensor values of the
    owned network, following the statements of each method in order. *)
Definition call_views (k : call) (v : list Tensor) : result (list Tensor) :=
  match k with
  | ContractIndices indices => contract_views indices v
  | FuseAndContractIndices ind1 ind2 =>
      let v' := map (renamed [(ind2, ind1)]) v in
      if existsb (occurs ind1) v' then Ok (contract_view ind1 v')
      else Raise (ValueError (TensorNetworkCode.not_found_after_fusing ind1))
  | ContractTwoIndices ind1 ind2 =>
      if negb (existsb (occurs ind1) v) then
        Raise (ValueError (TensorNetworkCode.not_found ind1))
      else if negb (existsb (occurs ind2) v) then
        Raise (ValueError (TensorNetworkCode.not_found ind2))
      else
        let v1 := contract_view ind1 v in
        if existsb (occurs ind2) v1 then Ok (contract_view ind2 v1)
        else Raise (KeyError ind2)
  end.

(** Both calls end alike (see [same_result]), on outcomes. *)
Definition alike (o1 o2 : result (list Tensor)) : Prop :=
  match o1, o2 with
  | Ok v1, Ok v2 => v1 = v2
  | Raise _, Raise _ => True
  | _, _ => False
  end.

(** The number of entries of an array of the given shape. *)
Definition n_entries (shp : list nat) : nat := fold_right Nat.mul 1 shp.

(** Two assignments give the same values to the labels [X]. *)
Definition same_on (X : list string) (e1 e2 : list (string * nat)) : Prop :=
  forall x, x ∈ X -> value e1 x = value e2 x.

(** The function reads an assignment at the labels [X] only. *)
Definition reads (X : list string) (f : list (string * nat) -> Z) : Prop :=
  forall e1 e2, same_on X e1 e2 -> f e1 = f e2.

(** Every axis of every tensor has the size [sz] gives to its label. *)
Definition sized (sz : string -> nat) (ts : list Tensor) : Prop :=
  Forall (fun t => shape (data t) = map sz (inds t)) ts.

(** The tensors of a network as section 3 of the specification has them:
    the legs of a tensor are distinct, one per array dimension, and the
    tensors agree on the size of a label they share. *)
Definition well_shaped (v : list Tensor) : Prop :=
  Forall (fun t => NoDup (inds t)) v /\ sized (ind_size v) v.

(** The loop of the label-by-label contraction, on tensor values. *)
Fixpoint contract_steps {R} `{Entry R} (order : list string)
    (v : list (Tensor_of R)) : list (Tensor_of R) :=
  match order with
  | [] => v
  | ind :: rest =>
      contract_steps rest
        (if 2 <=? n_owners v ind then contract_view ind v else v)
  end.

(** Modelled from the spec: the full contraction of section 4.2 carried
    out label by label, on tensor values.  This is the tensor that
    [TensorNetwork.contract_in_order] returns; it is defined for every
    entry type. *)
Definition contract_values {R} `{Entry R} (order : list string)
    (v : list (Tensor_of R)) : Tensor_of R :=
  tensor_contract (contract_steps order v) (outer_inds v).

(** ** Example objects *)

Definition ex_T1 : Tensor :=
  mk_Tensor (mk_ndarray [2; 2] [1; 2; 3; 4]%Z) ["a"; "b"]%string ["T1"%string].

Definition ex_T2 : Tensor :=
  mk_Tensor (mk_ndarray [2; 2] [5; 6; 7; 8]%Z) ["b"; "c"]%string ["T2"%string].

Definition ex_T3 : Tensor :=
  mk_Tensor (mk_ndarray [2; 2] [5; 6; 7; 8]%Z) ["a"; "b"]%string ["T3"%string].

Definition ex_T4 : Tensor :=
  mk_Tensor (mk_ndarray [2; 2] [5; 6; 7; 8]%Z) ["d"; "c"]%string ["T4"%string].

(** The caller's tensors, before any code object exists. *)
Definition ex_caller : heap := mk_heap [ex_T1; ex_T2; ex_T3; ex_T4] [].

(** [TensorNetworkCode([t1, t2])]: legs (a,b) and (b,c). *)
Definition ex_chain : result TensorNetworkCode.t * heap :=
  TensorNetworkCode.__init__ (TensorNetworkCode.TensorList [0; 1]) None ex_caller.

(** [TensorNetworkCode([t1, t3])]: legs (a,b) and (a,b). *)
Definition ex_double : result TensorNetworkCode.t * heap :=
  TensorNetworkCode.__init__ (TensorNetworkCode.TensorList [0; 2]) None ex_caller.

(** [TensorNetworkCode([t1, t4])]: legs (a,b) and (d,c). *)
Definition ex_apart : result TensorNetworkCode.t * heap :=
  TensorNetworkCode.__init__ (TensorNetworkCode.TensorList [0; 3]) None ex_caller.

Definition ex_T5 : Tensor :=
  mk_Tensor (mk_ndarray [2; 2] [1; 2; 3; 4]%Z) ["b"; "x"]%string ["T5"%string].

(** [TensorNetworkCode([t1, t3, t5])]: legs (a,b), (a,b) and (b,x). *)
Definition ex_star : result TensorNetworkCode.t * heap :=
  TensorNetworkCode.__init__ (TensorNetworkCode.TensorList [0; 1; 2]) None
    (mk_heap [ex_T1; ex_T3; ex_T5] []).

Module float64.
Import PrimFloat.

(** 0.1, 0.2 and 0.3 as [float64] holds them. *)
Definition c0_1 : float := 0x1.999999999999ap-4%float.
Definition c0_2 : float := 0x1.999999999999ap-3%float.
Definition c0_3 : float := 0x1.3333333333333p-2%float.

(** 0.006000000000000001 and 0.006, two neighbours in [float64]. *)
Definition c0_006_up : float := 0x1.89374bc6a7efbp-8%float.
Definition c0_006 : float := 0x1.89374bc6a7efap-8%float.

(** Three tensors of one entry each, with legs (a), (a,b) and (b):
    [Tensor(np.array([0.1]), inds=('a',))],
    [Tensor(np.array([[0.2]]), inds=('a','b'))] and
    [Tensor(np.array([0.3]), inds=('b',))]. *)
Definition ex_line : list (Tensor_of float) :=
  [mk_Tensor (mk_ndarray [1] [c0_1]) ["a"]%string ["F1"%string];
   mk_Tensor (mk_ndarray [1; 1] [c0_2]) ["a"; "b"]%string ["F2"%string];
   mk_Tensor (mk_ndarray [1] [c0_3]) ["b"]%string ["F3"%string]].

(** Modelled from the spec: the full contraction of section 4.2 carried
    out label by label, on tensors of [float64] entries. *)
Definition contract_in_order (order : list string) (v : list (Tensor_of float))
    : Tensor_of float :=
  @contract_values float float64_entries order v.

End float64.

(** Every network built by [__init__] on this store is network object 0. *)
Definition ex_code (ts : list loc) : TensorNetworkCode.t :=
  TensorNetworkCode.mk (TensorNetworkCode.TensorList ts) 0 None.

(** Well-formedness of a concrete network, by evaluation. *)
Ltac solve_wf :=
  unfold wf_net; cbn;
  split;
  [lia
  | split; [apply (bool_decide_unpack _); vm_compute; exact I
           | repeat constructor; lia]].

(** ** Basic facts *)

Lemma occurs_elem {R} ind (t : Tensor_of R) :
  occurs ind t = true <-> ind ∈ inds t.
Proof.
  unfold occurs. rewrite existsb_exists. split.
  - intros (x & Hin & Heq). apply String.eqb_eq in Heq. subst.
    by apply list_elem_of_In.
  - intros Hin. exists ind. split; [by apply list_elem_of_In | apply String.eqb_refl].
Qed.

Lemma copies_length ls : forall h, length (copies h ls) = length ls.
Proof. induction ls as [|l ls IH]; intros h; simpl; [done | by rewrite IH]. Qed.

Lemma deref_app_l h l ext :
  l < length (tens h) -> deref (mk_heap (tens h ++ ext) (nets h)) l = deref h l.
Proof. intros Hl. unfold deref. simpl. by apply lookup_total_app_l. Qed.

Lemma copies_valid ls : forall h,
  Forall (fun l => l < length (tens h)) ls -> copies h ls = map (deref h) ls.
Proof.
  induction ls as [|l ls IH]; intros h Hall; simpl; [done |].
  inversion Hall as [|? ? Hl Hls]; subst. f_equal.
  rewrite IH.
  - apply map_ext_Forall. eapply Forall_impl; [exact Hls |].
    intros x Hx. simpl. by apply deref_app_l.
  - simpl. rewrite length_app. simpl.
    eapply Forall_impl; [exact Hls |]. intros x Hx. simpl in *. lia.
Qed.

Lemma map_each_copy ls : forall h,
  map_each ls Tensor_copy h =
    (Ok (seq (length (tens h)) (length ls)),
     mk_heap (tens h ++ copies h ls) (nets h)).
Proof.
  induction ls as [|l ls IH]; intros h.
  - simpl. unfold ret. rewrite app_nil_r. by destruct h.
  - simpl. unfold bind at 1. unfold Tensor_copy at 1.
    unfold bind at 1, inspect, alloc_tensor.
    unfold bind at 1. rewrite IH. simpl. unfold ret.
    rewrite length_app. simpl. rewrite Nat.add_1_r.
    by rewrite <- app_assoc.
Qed.

Lemma new_eq ls h :
  TensorNetwork.new ls h =
    (Ok (length (nets h)),
     mk_heap (tens h ++ copies h ls)
             (nets h ++ [seq (length (tens h)) (length ls)])).
Proof. unfold TensorNetwork.new, bind. by rewrite map_each_copy. Qed.

Lemma copy_eq n h :
  TensorNetwork.copy n h =
    (Ok (length (nets h)),
     mk_heap (tens h ++ copies h (net_locs h n))
             (nets h ++ [seq (length (tens h)) (length (net_locs h n))])).
Proof. unfold TensorNetwork.copy, bind, inspect. by rewrite new_eq. Qed.

Lemma lookup_total_fresh {A} `{Inhabited A} (l1 l2 : list A) :
  map (fun i => (l1 ++ l2) !!! i) (seq (length l1) (length l2)) = l2.
Proof.
  revert l1. induction l2 as [|x l2 IH]; intros l1; simpl; [done |].
  f_equal.
  - by apply list_lookup_total_middle.
  - specialize (IH (l1 ++ [x])). rewrite length_app in IH. simpl in IH.
    rewrite Nat.add_1_r in IH. rewrite <- app_assoc in IH. exact IH.
Qed.

(** A network built from tensors [ls]: a new network object whose tensors
    are new objects, holding the values read while copying. *)
Lemma new_fresh ls h :
  let tn := length (nets h) in
  let h' := snd (TensorNetwork.new ls h) in
  fst (TensorNetwork.new ls h) = Ok tn /\
  net_locs h' tn = seq (length (tens h)) (length ls) /\
  view h' tn = copies h ls /\
  wf_net h' tn /\
  extends h h'.
Proof.
  intros tn h'. subst tn h'. rewrite new_eq. simpl.
  assert (Hlocs : net_locs
            (mk_heap (tens h ++ copies h ls)
               (nets h ++ [seq (length (tens h)) (length ls)]))
            (length (nets h))
          = seq (length (tens h)) (length ls)).
  { unfold net_locs at 1. simpl. by apply list_lookup_total_middle. }
  split; [done |]. split; [done |]. split; [| split].
  - unfold view. rewrite Hlocs. unfold deref. simpl.
    rewrite <- (copies_length ls h) at 1.
    apply lookup_total_fresh.
  - unfold wf_net. rewrite Hlocs. simpl. split; [| split].
    + rewrite length_app. simpl. lia.
    + apply NoDup_seq.
    + apply Forall_forall. intros x Hx. apply elem_of_seq in Hx.
      rewrite length_app, copies_length. lia.
  - split; simpl; eauto.
Qed.

(** The clone made by [copy]. *)
Lemma copy_clone n h :
  let tn := length (nets h) in
  let hc := snd (TensorNetwork.copy n h) in
  fst (TensorNetwork.copy n h) = Ok tn /\
  net_locs hc tn = seq (length (tens h)) (length (net_locs h n)) /\
  view hc tn = copies h (net_locs h n) /\
  wf_net hc tn /\
  extends h hc.
Proof. apply (new_fresh (net_locs h n) h). Qed.

(** The constructor builds a well-formed network that holds the values of
    the caller's tensors, and leaves the caller's objects alone. *)
Lemma init_wf targ s h :
  let ts := match targ with
            | TensorNetworkCode.TensorDict d => map snd d
            | TensorNetworkCode.TensorList ts => ts
            end in
  let r := TensorNetworkCode.__init__ targ s h in
  Forall (fun l => l < length (tens h)) ts ->
  exists self,
    fst r = Ok self /\
    TensorNetworkCode.tensors self = targ /\
    TensorNetworkCode.structure self = s /\
    wf_net (snd r) (TensorNetworkCode.network self) /\
    view (snd r) (TensorNetworkCode.network self) = map (deref h) ts /\
    extends h (snd r).
Proof.
  intros ts r Hall. subst r. unfold TensorNetworkCode.__init__, bind, ret. fold ts.
  destruct (new_fresh ts h) as (Hok & _ & Hv & Hwf & Hext).
  destruct (TensorNetwork.new ts h) as [r h']. cbn [fst snd] in *. subst r.
  eexists. split; [reflexivity |].
  cbn [fst snd TensorNetworkCode.network TensorNetworkCode.tensors
       TensorNetworkCode.structure].
  split; [done |]. split; [done |]. split; [done |]. split; [| done].
  rewrite Hv. by apply copies_valid.
Qed.

Lemma copy_view n h :
  wf_net h n ->
  view (snd (TensorNetwork.copy n h)) (length (nets h)) = view h n.
Proof.
  intros (_ & _ & Hall).
  destruct (copy_clone n h) as (_ & _ & Hv & _). rewrite Hv.
  by apply copies_valid.
Qed.

(** Membership in the derived [ind_map]. *)
Lemma assoc_keys {V} (f : string -> V) (keys : list string) ind :
  assoc (map (fun k => (k, f k)) keys) ind =
    if bool_decide (ind ∈ keys) then Some (f ind) else None.
Proof.
  induction keys as [|k keys IH]; [done |]. cbn [map assoc].
  destruct (String.eqb ind k) eqn:E.
  - apply String.eqb_eq in E. subst.
    rewrite bool_decide_eq_true_2; [done | by left].
  - apply String.eqb_neq in E. rewrite IH.
    destruct (bool_decide (ind ∈ keys)) eqn:E2.
    + apply bool_decide_eq_true in E2.
      rewrite bool_decide_eq_true_2; [done | by right].
    + apply bool_decide_eq_false in E2.
      rewrite bool_decide_eq_false_2; [done |].
      intros [Heq | Hin]%elem_of_cons; congruence.
Qed.

Lemma present_elem h tn ind :
  present h tn ind = true <->
  ind ∈ concat (map (fun l => inds (deref h l)) (net_locs h tn)).
Proof.
  unfold present, view. rewrite existsb_exists. split.
  - intros (t & Hin & Hocc). apply in_map_iff in Hin as (l & <- & Hl).
    apply occurs_elem in Hocc. apply list_elem_of_In, in_concat.
    exists (inds (deref h l)). split.
    + apply in_map_iff. eauto.
    + by apply list_elem_of_In.
  - intros Hin. apply list_elem_of_In, in_concat in Hin as (ix & Hix & Hin).
    apply in_map_iff in Hix as (l & <- & Hl).
    exists (deref h l). split.
    + apply in_map_iff. eauto.
    + apply occurs_elem. by apply list_elem_of_In.
Qed.

Lemma assoc_ind_map h tn ind :
  assoc (TensorNetwork.ind_map h tn) ind =
    if present h tn ind then Some (TensorNetwork.owners h tn ind) else None.
Proof.
  unfold TensorNetwork.ind_map. rewrite assoc_keys.
  destruct (present h tn ind) eqn:E.
  - apply present_elem in E.
    rewrite bool_decide_eq_true_2; [done | by apply elem_of_remove_dups].
  - rewrite bool_decide_eq_false_2; [done |].
    intros Hin. apply elem_of_remove_dups, present_elem in Hin. congruence.
Qed.

Lemma ind_in_map_eq tn ind h :
  TensorNetwork.ind_in_map tn ind h = (Ok (present h tn ind), h).
Proof.
  unfold TensorNetwork.ind_in_map, inspect. rewrite assoc_ind_map.
  destruct (present h tn ind).
  - rewrite bool_decide_eq_true_2; [done | eauto].
  - rewrite bool_decide_eq_false_2; [done | by intros [? ?]].
Qed.

Lemma map_filter_deref h (P : Tensor -> bool) (ls : list loc) :
  map (deref h) (filter (fun l => P (deref h l)) ls) =
  filter (fun t => P t) (map (deref h) ls).
Proof.
  induction ls as [|l ls IH]; [done |].
  rewrite filter_cons. simpl. rewrite filter_cons.
  destruct (P (deref h l)); simpl; by rewrite ?IH.
Qed.

Lemma owners_length h n ind :
  length (TensorNetwork.owners h n ind) =
  length (filter (fun t => occurs ind t) (view h n)).
Proof.
  unfold view. rewrite <- (map_filter_deref h (occurs ind)).
  by rewrite length_map.
Qed.

Lemma filter_ext_bool {A} (f g : A -> bool) (l : list A) :
  (forall x, f x = g x) -> filter (fun x => f x) l = filter (fun x => g x) l.
Proof.
  intros Hfg. induction l as [|x l IH]; [done |].
  by rewrite !filter_cons, Hfg, IH.
Qed.

Lemma contract_ind_eq tn ind h :
  TensorNetwork.contract_ind tn ind h =
    if present h tn ind then
      (Ok tt,
       mk_heap
         (tens h ++ [tensor_contract
                       (filter (fun t => occurs ind t) (view h tn))
                       (contracted_inds
                          (filter (fun t => occurs ind t) (view h tn))
                          (view h tn))])
         (<[tn := filter (fun l => negb (TensorNetwork.has_ind h ind l))
                         (net_locs h tn) ++ [length (tens h)]]> (nets h)))
    else (Raise (KeyError ind), h).
Proof.
  unfold TensorNetwork.contract_ind, bind, inspect. rewrite assoc_ind_map.
  destruct (present h tn ind); [| done].
  unfold TensorNetwork.compute_contracted_inds, inspect, alloc_tensor, store_net.
  simpl.
  assert (Hsel : map (deref h) (TensorNetwork.owners h tn ind) =
                 filter (fun t => occurs ind t) (view h tn)).
  { unfold TensorNetwork.owners, TensorNetwork.has_ind.
    by rewrite (map_filter_deref h (occurs ind)). }
  assert (Hixs : concat (map (fun l => inds (deref h l))
                             (TensorNetwork.owners h tn ind)) =
                 all_inds (filter (fun t => occurs ind t) (view h tn))).
  { unfold all_inds. by rewrite <- Hsel, map_map. }
  rewrite Hsel, Hixs. do 5 f_equal. unfold contracted_inds.
  apply (filter_ext_bool
           (fun ix =>
              negb (length (filter (fun l => TensorNetwork.has_ind h ix l)
                                   (TensorNetwork.owners h tn ind))
                    =? length (TensorNetwork.owners h tn ix))
              || (length (TensorNetwork.owners h tn ix) =? 1))).
  intros ix. unfold n_owners. rewrite owners_length. do 3 f_equal.
  rewrite <- Hsel. unfold TensorNetwork.has_ind.
  rewrite <- (map_filter_deref h (occurs ix)). by rewrite length_map.
Qed.

(** ** Effects of the library operations on a well-formed network *)

Lemma deref_valid_app h l ext ns :
  l < length (tens h) -> deref (mk_heap (tens h ++ ext) ns) l = deref h l.
Proof. intros Hl. unfold deref. simpl. by apply lookup_total_app_l. Qed.

Lemma contract_ind_ok tn ind h :
  wf_net h tn -> present h tn ind = true ->
  let h' := snd (TensorNetwork.contract_ind tn ind h) in
  fst (TensorNetwork.contract_ind tn ind h) = Ok tt /\
  view h' tn = contract_view ind (view h tn) /\
  wf_net h' tn.
Proof.
  intros (Hn & Hnd & Hall) Hp. rewrite contract_ind_eq, Hp. simpl.
  set (rest := filter (fun l => negb (TensorNetwork.has_ind h ind l)) (net_locs h tn)).
  set (tnew := tensor_contract (filter (fun t => occurs ind t) (view h tn))).
  set (h' := mk_heap _ _).
  assert (Hlocs : net_locs h' tn = rest ++ [length (tens h)]).
  { unfold net_locs at 1, h'. simpl. by apply list_lookup_total_insert_eq. }
  assert (Hrest : Forall (fun l => l < length (tens h)) rest).
  { apply Forall_forall. intros x Hx. apply list_elem_of_filter in Hx as [_ Hx].
    rewrite Forall_forall in Hall. by apply Hall. }
  split; [done |]. split; [| split; [| split]].
  - unfold view. rewrite Hlocs, map_app. unfold contract_view. f_equal.
    + transitivity (map (deref h) rest).
      * apply map_ext_Forall. eapply Forall_impl; [exact Hrest |].
        intros x Hx. by apply deref_valid_app.
      * unfold rest, TensorNetwork.has_ind.
        apply (map_filter_deref h (fun t => negb (occurs ind t))).
    + simpl. f_equal. unfold deref, h'. simpl.
      by apply (list_lookup_total_middle (tens h) []).
  - unfold h'. simpl. by rewrite length_insert.
  - rewrite Hlocs. apply NoDup_app. split; [| split].
    + by apply NoDup_filter.
    + intros x Hx Hx'. apply list_elem_of_singleton in Hx'. subst.
      rewrite Forall_forall in Hrest. specialize (Hrest _ Hx). lia.
    + apply NoDup_singleton.
  - rewrite Hlocs. unfold h'. simpl. rewrite length_app. simpl.
    apply Forall_app. split.
    + eapply Forall_impl; [exact Hrest |]. intros x Hx. simpl in *. lia.
    + apply Forall_singleton. lia.
Qed.

Lemma contract_ind_absent tn ind h :
  present h tn ind = false ->
  TensorNetwork.contract_ind tn ind h = (Raise (KeyError ind), h).
Proof. intros Hp. by rewrite contract_ind_eq, Hp. Qed.

Lemma contract_step_eq tn ind h :
  contract_step tn ind h =
    if present h tn ind then TensorNetwork.contract_ind tn ind h
    else (Raise (ValueError (TensorNetworkCode.not_found ind)), h).
Proof.
  unfold contract_step, bind. rewrite ind_in_map_eq.
  by destruct (present h tn ind).
Qed.

(** ** Frame: what the operations on a clone leave alone *)

Lemma same_below_refl bt bn h : same_below bt bn h h.
Proof. by split. Qed.

Lemma same_below_trans bt bn h1 h2 h3 :
  same_below bt bn h1 h2 -> same_below bt bn h2 h3 -> same_below bt bn h1 h3.
Proof. intros [H1 H2] [H3 H4]. split; congruence. Qed.

Lemma same_below_extends h h' :
  same_below (length (tens h)) (length (nets h)) h h' -> extends h h'.
Proof.
  intros [Ht Hn]. rewrite firstn_all in Ht, Hn. split.
  - exists (drop (length (tens h)) (tens h')).
    by rewrite <- Ht at 1; rewrite take_drop.
  - exists (drop (length (nets h)) (nets h')).
    by rewrite <- Hn at 1; rewrite take_drop.
Qed.

Lemma extends_same_below h h' :
  extends h h' -> same_below (length (tens h)) (length (nets h)) h h'.
Proof.
  intros [[e1 H1] [e2 H2]]. split.
  - rewrite H1. by rewrite take_app_length, firstn_all.
  - rewrite H2. by rewrite take_app_length, firstn_all.
Qed.

Lemma contract_ind_frame bt bn tn ind h :
  bt <= length (tens h) -> bn <= tn ->
  let h' := snd (TensorNetwork.contract_ind tn ind h) in
  same_below bt bn h h' /\ length (tens h) <= length (tens h').
Proof.
  intros Hbt Hbn. rewrite contract_ind_eq.
  destruct (present h tn ind); simpl.
  - split; [split |].
    + by apply take_app_le.
    + by apply take_insert_ge.
    + rewrite length_app. lia.
  - split; [apply same_below_refl | done].
Qed.

Lemma contract_step_frame bt bn tn ind h :
  bt <= length (tens h) -> bn <= tn ->
  let h' := snd (contract_step tn ind h) in
  same_below bt bn h h' /\ length (tens h) <= length (tens h').
Proof.
  intros Hbt Hbn. rewrite contract_step_eq.
  destruct (present h tn ind).
  - by apply contract_ind_frame.
  - simpl. split; [apply same_below_refl | done].
Qed.

Lemma reindex_frame bt bn l m h :
  bt <= l ->
  let h' := snd (reindex_ l m h) in
  same_below bt bn h h' /\ length (tens h') = length (tens h).
Proof.
  intros Hl. unfold reindex_, bind, inspect, store_tensor. simpl.
  split; [split |].
  - by apply take_insert_ge.
  - done.
  - apply length_insert.
Qed.

(** A loop whose every iteration keeps the lower part of the store keeps
    it as a whole. *)
Lemma for_each_frame {A} bt bn (xs : list A) (body : A -> M unit) :
  (forall x h, x ∈ xs -> bt <= length (tens h) ->
     same_below bt bn h (snd (body x h)) /\
     length (tens h) <= length (tens (snd (body x h)))) ->
  forall h, bt <= length (tens h) ->
    same_below bt bn h (snd (for_each xs body h)) /\
    length (tens h) <= length (tens (snd (for_each xs body h))).
Proof.
  induction xs as [|x xs IH]; intros Hbody h Hbt; simpl.
  - split; [apply same_below_refl | done].
  - unfold bind. destruct (Hbody x h) as [Hs Hlen]; [by left | done |].
    destruct (body x h) as [[[] | e] h1]; simpl in *.
    + destruct (IH (fun y h Hy => Hbody y h (list_elem_of_further _ _ _ Hy)) h1)
        as [Hs' Hlen']; [lia |].
      split; [by eapply same_below_trans | lia].
    + done.
Qed.

Lemma copy_run n h :
  TensorNetwork.copy n h = (Ok (clone_ref h), clone_store h n).
Proof. apply copy_eq. Qed.

Lemma clone_store_frame h n :
  same_below (length (tens h)) (length (nets h)) h (clone_store h n) /\
  length (tens h) <= length (tens (clone_store h n)).
Proof.
  split.
  - apply extends_same_below. split; simpl; eauto.
  - simpl. rewrite length_app. lia.
Qed.

Lemma clone_locs h n :
  net_locs (clone_store h n) (clone_ref h) =
  seq (length (tens h)) (length (net_locs h n)).
Proof.
  destruct (copy_clone n h) as (_ & H & _). by rewrite copy_run in H.
Qed.

Lemma clone_wf h n : wf_net (clone_store h n) (clone_ref h).
Proof.
  destruct (copy_clone n h) as (_ & _ & _ & H & _). by rewrite copy_run in H.
Qed.

Lemma clone_view h n :
  wf_net h n -> view (clone_store h n) (clone_ref h) = view h n.
Proof. intros Hwf. pose proof (copy_view n h Hwf) as H. by rewrite copy_run in H. Qed.

Lemma contract_indices_eq self indices h :
  TensorNetworkCode.contract_indices self indices h =
    match for_each indices (contract_step (clone_ref h))
                   (clone_store h (TensorNetworkCode.network self)) with
    | (Ok _, h') => (Ok (clone_ref h), h')
    | (Raise e, h') => (Raise e, h')
    end.
Proof.
  unfold TensorNetworkCode.contract_indices, bind at 1. rewrite copy_run.
  unfold bind at 1. fold (contract_step (clone_ref h)).
  by destruct (for_each _ _ _) as [[[] | e] h'].
Qed.

Lemma contract_two_indices_eq self ind1 ind2 h :
  let tn := clone_ref h in
  let hc := clone_store h (TensorNetworkCode.network self) in
  TensorNetworkCode.contract_two_indices self ind1 ind2 h =
    if negb (present hc tn ind1) then
      (Raise (ValueError (TensorNetworkCode.not_found ind1)), hc)
    else if negb (present hc tn ind2) then
      (Raise (ValueError (TensorNetworkCode.not_found ind2)), hc)
    else
      (TensorNetwork.contract_ind tn ind1 ;;;
       TensorNetwork.contract_ind tn ind2 ;;;
       ret tn) hc.
Proof.
  intros tn hc.
  unfold TensorNetworkCode.contract_two_indices, bind at 1. rewrite copy_run.
  fold tn hc. unfold bind at 1. rewrite ind_in_map_eq.
  destruct (present hc tn ind1); simpl; [| done].
  unfold bind at 1. unfold ret at 1. unfold bind at 1. rewrite ind_in_map_eq.
  destruct (present hc tn ind2); simpl; done.
Qed.

(** The renaming pass of [fuse_and_contract_indices]. *)
Lemma for_each_reindex ls m : forall h,
  for_each ls (fun t => reindex_ t m) h =
    (Ok tt,
     mk_heap (rename_pass m (tens h) ls) (nets h)).
Proof.
  induction ls as [|l ls IH]; intros h; simpl.
  - unfold ret. by destruct h.
  - unfold bind at 1. unfold reindex_ at 1.
    unfold bind, inspect, store_tensor. by rewrite IH.
Qed.

Lemma rename_pass_length m ls : forall ts,
  length (rename_pass m ts ls) = length ts.
Proof.
  induction ls as [|l ls IH]; intros ts; simpl; [done |].
  unfold rename_pass in *. simpl. by rewrite IH, length_insert.
Qed.

Lemma rename_pass_other m ls : forall ts l,
  l ∉ ls -> rename_pass m ts ls !!! l = ts !!! l.
Proof.
  induction ls as [|x ls IH]; intros ts l Hl; [done |].
  apply not_elem_of_cons in Hl as [Hne Hl].
  unfold rename_pass in *. simpl. rewrite IH by done.
  by apply list_lookup_total_insert_ne.
Qed.

Lemma rename_pass_in m ls : forall ts l,
  NoDup ls -> Forall (fun x => x < length ts) ls -> l ∈ ls ->
  rename_pass m ts ls !!! l = renamed m (ts !!! l).
Proof.
  induction ls as [|x ls IH]; intros ts l Hnd Hall Hl.
  - by apply not_elem_of_nil in Hl.
  - apply NoDup_cons in Hnd as [Hx Hnd].
    inversion Hall as [|? ? Hxlt Hall']; subst.
    change (rename_pass m ts (x :: ls))
      with (rename_pass m (<[x := renamed m (ts !!! x)]> ts) ls).
    apply elem_of_cons in Hl as [-> | Hl].
    + rewrite rename_pass_other by done.
      by apply list_lookup_total_insert_eq.
    + rewrite IH; [| done | | done].
      * f_equal. apply list_lookup_total_insert_ne. by intros ->.
      * eapply Forall_impl; [exact Hall' |]. intros y Hy. simpl.
        by rewrite length_insert.
Qed.

Lemma rename_pass_id m ls : forall ts,
  Forall (fun l => renamed m (ts !!! l) = ts !!! l) ls ->
  rename_pass m ts ls = ts.
Proof.
  induction ls as [|x ls IH]; intros ts Hall; [done |].
  inversion Hall as [|? ? Hx Hall']; subst.
  change (rename_pass m ts (x :: ls))
    with (rename_pass m (<[x := renamed m (ts !!! x)]> ts) ls).
  rewrite Hx. rewrite list_insert_id'.
  - by apply IH.
  - intros Hlt. by apply list_lookup_lookup_total_lt.
Qed.

(** The renaming pass over a well-formed network renames every tensor of
    the network and nothing else of it. *)
Lemma rename_pass_view m h n :
  wf_net h n ->
  let h' := mk_heap (rename_pass m (tens h) (net_locs h n)) (nets h) in
  net_locs h' n = net_locs h n /\
  view h' n = map (renamed m) (view h n) /\
  wf_net h' n.
Proof.
  intros (Hn & Hnd & Hall) h'.
  assert (Hlocs : net_locs h' n = net_locs h n) by done.
  split; [done |]. split.
  - unfold view. rewrite Hlocs, map_map. apply map_ext_Forall.
    apply Forall_forall. intros l Hl. unfold deref. simpl.
    by apply rename_pass_in.
  - unfold wf_net. rewrite Hlocs. simpl. rewrite rename_pass_length. done.
Qed.

Lemma renamed_id ind1 ind2 v :
  occurs ind2 v = false -> renamed [(ind2, ind1)] v = v.
Proof.
  intros Hocc. destruct v as [d ix tg]. unfold renamed. simpl. f_equal.
  unfold occurs in Hocc. simpl in Hocc.
  induction ix as [|i ix IH]; [done |].
  simpl in *. apply orb_false_iff in Hocc as [Hi Hix].
  rewrite String.eqb_sym in Hi. rewrite Hi. simpl. by rewrite IH.
Qed.

Lemma fuse_and_contract_indices_eq self ind1 ind2 h :
  let tn := clone_ref h in
  let hc := clone_store h (TensorNetworkCode.network self) in
  let hr := snd (for_each (net_locs hc tn)
                          (fun t => reindex_ t [(ind2, ind1)]) hc) in
  TensorNetworkCode.fuse_and_contract_indices self ind1 ind2 h =
    if negb (present hr tn ind1) then
      (Raise (ValueError (TensorNetworkCode.not_found_after_fusing ind1)), hr)
    else (TensorNetwork.contract_ind tn ind1 ;;; ret tn) hr.
Proof.
  intros tn hc hr.
  unfold TensorNetworkCode.fuse_and_contract_indices, bind at 1.
  rewrite copy_run. fold tn hc.
  unfold bind at 1, TensorNetwork.tensors, inspect.
  unfold bind at 1.
  subst hr. rewrite for_each_reindex. simpl.
  set (hr := mk_heap _ _).
  unfold bind at 1. rewrite ind_in_map_eq.
  destruct (present hr tn ind1); simpl; done.
Qed.

Lemma run_call_frame self k h :
  same_below (length (tens h)) (length (nets h)) h (snd (run_call self k h)).
Proof.
  set (n := TensorNetworkCode.network self).
  destruct (clone_store_frame h n) as [Hc Hlen].
  destruct k as [indices | ind1 ind2 | ind1 ind2]; simpl.
  - rewrite contract_indices_eq. fold n.
    destruct (for_each_frame (length (tens h)) (length (nets h)) indices
                (contract_step (clone_ref h))
                (fun x h1 _ Hh1 => contract_step_frame _ _ _ x h1 Hh1 (le_n _))
                (clone_store h n) Hlen) as [Hs _].
    destruct (for_each _ _ _) as [[[] | e] h']; simpl in *;
      by eapply same_below_trans.
  - rewrite fuse_and_contract_indices_eq. fold n. simpl.
    set (tn := clone_ref h). set (hc := clone_store h n) in *.
    destruct (for_each_frame (length (tens h)) (length (nets h))
                (net_locs hc tn) (fun t => reindex_ t [(ind2, ind1)])) with (h := hc)
      as [Hs Hlen']; [| done |].
    { intros x h1 Hx Hh1. unfold hc, tn in Hx. rewrite clone_locs in Hx.
      apply elem_of_seq in Hx.
      destruct (reindex_frame (length (tens h)) (length (nets h)) x
                  [(ind2, ind1)] h1) as [Hs Hl]; [lia |].
      split; [done | lia]. }
    set (hr := snd _) in *.
    destruct (present hr tn ind1); simpl.
    + unfold bind.
      destruct (contract_ind_frame (length (tens h)) (length (nets h)) tn ind1 hr)
        as [Hs2 _]; [lia | done |].
      destruct (TensorNetwork.contract_ind tn ind1 hr) as [[[] | e] h']; simpl in *;
        eapply same_below_trans; eauto using same_below_trans.
    + by eapply same_below_trans.
  - rewrite contract_two_indices_eq. fold n. simpl.
    set (tn := clone_ref h). set (hc := clone_store h n) in *.
    destruct (present hc tn ind1); simpl; [| done].
    destruct (present hc tn ind2); simpl; [| done].
    unfold bind.
    destruct (contract_ind_frame (length (tens h)) (length (nets h)) tn ind1 hc)
      as [Hs1 Hl1]; [lia | done |].
    destruct (TensorNetwork.contract_ind tn ind1 hc) as [[[] | e] h1]; simpl in *.
    + destruct (contract_ind_frame (length (tens h)) (length (nets h)) tn ind2 h1)
        as [Hs2 _]; [lia | done |].
      destruct (TensorNetwork.contract_ind tn ind2 h1) as [[[] | e] h2]; simpl in *;
        eauto using same_below_trans.
    + eauto using same_below_trans.
Qed.

Lemma filter_ext_Forall {A} (f g : A -> bool) (l : list A) :
  Forall (fun x => f x = g x) l ->
  filter (fun x => f x) l = filter (fun x => g x) l.
Proof.
  induction 1 as [|x l Hx _ IH]; [done |].
  rewrite !filter_cons, Hx, IH. done.
Qed.

(** What is observable of a well-formed network survives any extension of
    the store. *)
Lemma extends_observe h h' n :
  extends h h' -> wf_net h n ->
  net_locs h' n = net_locs h n /\
  view h' n = view h n /\
  TensorNetwork.ind_map h' n = TensorNetwork.ind_map h n.
Proof.
  intros [[et Ht] [en Hn]] (Hlt & _ & Hall).
  assert (Hlocs : net_locs h' n = net_locs h n).
  { unfold net_locs. rewrite Hn. by apply lookup_total_app_l. }
  assert (Hderef : Forall (fun l => deref h' l = deref h l) (net_locs h n)).
  { eapply Forall_impl; [exact Hall |]. intros l Hl. simpl in Hl.
    unfold deref. rewrite Ht. by apply lookup_total_app_l. }
  split; [done |]. split.
  - unfold view. rewrite Hlocs. by apply map_ext_Forall.
  - unfold TensorNetwork.ind_map. rewrite Hlocs.
    assert (Hkeys : map (fun l => inds (deref h' l)) (net_locs h n) =
                    map (fun l => inds (deref h l)) (net_locs h n)).
    { apply map_ext_Forall. eapply Forall_impl; [exact Hderef |].
      intros l Hl. simpl in Hl. by rewrite Hl. }
    rewrite Hkeys. apply map_ext. intros ind. f_equal.
    unfold TensorNetwork.owners. rewrite Hlocs.
    apply filter_ext_Forall. eapply Forall_impl; [exact Hderef |].
    intros l Hl. simpl in Hl. unfold TensorNetwork.has_ind. by rewrite Hl.
Qed.

Lemma extends_wf h h' n : extends h h' -> wf_net h n -> wf_net h' n.
Proof.
  intros Hext Hwf. destruct (extends_observe h h' n Hext Hwf) as (Hl & _).
  destruct Hext as [[et Ht] [en Hn]]. destruct Hwf as (Hlt & Hnd & Hall).
  unfold wf_net. rewrite Hl, Ht, Hn, !length_app. split; [lia |].
  split; [done |]. eapply Forall_impl; [exact Hall |].
  intros l Hlv. simpl in *. lia.
Qed.

(** C1. Non-destructive contraction: whichever of [contract_indices],
    [fuse_and_contract_indices] and [contract_two_indices] is called, with
    whatever labels, and whether it returns a network or raises, the store
    afterwards is the store before followed by new objects only; so the
    owned network keeps its tensor collection, every tensor keeps its array,
    legs and tags, the derived [ind_map] is the same, and [get_tensors]
    returns what it returned before. *)
Theorem contraction_is_non_destructive self k h :
  wf_net h (TensorNetworkCode.network self) ->
  let n := TensorNetworkCode.network self in
  let h' := snd (run_call self k h) in
  extends h h' /\
  net_locs h' n = net_locs h n /\
  view h' n = view h n /\
  TensorNetwork.ind_map h' n = TensorNetwork.ind_map h n /\
  fst (TensorNetworkCode.get_tensors self h') =
    fst (TensorNetworkCode.get_tensors self h).
Proof.
  intros Hwf n h'.
  assert (Hext : extends h h').
  { apply same_below_extends, run_call_frame. }
  destruct (extends_observe h h' n Hext Hwf) as (Hl & Hv & Hm).
  repeat split; try done; try apply Hext.
  unfold TensorNetworkCode.get_tensors, TensorNetwork.tensors, inspect. simpl.
  fold n. by rewrite Hl.
Qed.

(** ** Failures for missing labels *)

Lemma for_each_app {A} (xs ys : list A) (body : A -> M unit) h :
  for_each (xs ++ ys) body h =
    match for_each xs body h with
    | (Ok _, h1) => for_each ys body h1
    | (Raise e, h1) => (Raise e, h1)
    end.
Proof.
  revert h. induction xs as [|x xs IH]; intros h; simpl; [done |].
  unfold bind. destruct (body x h) as [[[] | e] h1]; [apply IH | done].
Qed.

Lemma contract_step_absent tn ind h :
  present h tn ind = false ->
  contract_step tn ind h =
    (Raise (ValueError (TensorNetworkCode.not_found ind)), h).
Proof. intros Hp. by rewrite contract_step_eq, Hp. Qed.

Lemma contract_ind_present tn ind h :
  present h tn ind = true ->
  fst (TensorNetwork.contract_ind tn ind h) = Ok tt.
Proof. intros Hp. by rewrite contract_ind_eq, Hp. Qed.

Lemma uniq_elem (x : string) ls : x ∈ uniq ls <-> x ∈ ls.
Proof.
  induction ls as [|l ls IH]; simpl; [done |].
  rewrite !elem_of_cons, list_elem_of_filter, IH.
  destruct (String.eqb_spec x l) as [-> | Hne]; simpl.
  - split; [intros _ | intros _]; by left.
  - split.
    + intros [Heq | [_ Hin]]; [by left | by right].
    + intros [Heq | Hin]; [by left | by right].
Qed.

Lemma NoDup_uniq ls : NoDup (uniq ls).
Proof.
  induction ls as [|l ls IH]; simpl; [constructor |].
  apply NoDup_cons. split.
  - intros [Hl _]%list_elem_of_filter. by rewrite String.eqb_refl in Hl.
  - by apply NoDup_filter.
Qed.

Lemma all_inds_elem l (ts : list Tensor) : l ∈ all_inds ts <-> existsb (occurs l) ts = true.
Proof.
  unfold all_inds. rewrite existsb_exists. split.
  - intros Hin. apply list_elem_of_In, in_concat in Hin as (ix & Hix & Hin).
    apply in_map_iff in Hix as (t & <- & Ht). exists t. split; [done |].
    apply occurs_elem. by apply list_elem_of_In.
  - intros (t & Ht & Hocc). apply list_elem_of_In, in_concat.
    exists (inds t). split; [apply in_map_iff; eauto |].
    apply list_elem_of_In. by apply occurs_elem.
Qed.

(** A contraction introduces no label. *)
Lemma contracted_inds_sub l (sel net : list Tensor) :
  l ∈ contracted_inds sel net -> existsb (occurs l) sel = true.
Proof.
  intros [_ Hin]%list_elem_of_filter.
  by apply all_inds_elem, uniq_elem.
Qed.

Lemma tensor_contract_inds l (ts : list Tensor) out :
  occurs l (tensor_contract ts out) = true <-> l ∈ out.
Proof. apply occurs_elem. Qed.

Lemma existsb_filter_true {A} (f p : A -> bool) (l : list A) :
  existsb f (filter (fun x => p x) l) = true -> existsb f l = true.
Proof.
  rewrite !existsb_exists. intros (x & Hx & Hf). exists x. split; [| done].
  apply list_elem_of_In. apply list_elem_of_In, list_elem_of_filter in Hx.
  tauto.
Qed.

Lemma contract_view_present ind l (v : list Tensor) :
  existsb (occurs l) (contract_view ind v) = true ->
  existsb (occurs l) v = true.
Proof.
  unfold contract_view. rewrite existsb_app. simpl. rewrite orb_false_r.
  intros [H | H]%orb_true_iff.
  - by eapply (existsb_filter_true _ (fun t => negb (occurs ind t))).
  - apply tensor_contract_inds, contracted_inds_sub in H.
    by eapply (existsb_filter_true _ (fun t => occurs ind t)).
Qed.

(** Once a label is absent from a network it stays absent, so a loop over
    labels that include it cannot run to its end. *)
Lemma for_each_contract_step_fails tn ind indices : forall h,
  wf_net h tn -> ind ∈ indices -> present h tn ind = false ->
  exists ind' h',
    ind' ∈ indices /\
    for_each indices (contract_step tn) h =
      (Raise (ValueError (TensorNetworkCode.not_found ind')), h').
Proof.
  induction indices as [|x indices IH]; intros h Hwf Hin Hp.
  - by apply not_elem_of_nil in Hin.
  - simpl. unfold bind. rewrite contract_step_eq.
    destruct (present h tn x) eqn:Hx.
    + destruct (contract_ind_ok tn x h Hwf Hx) as (Hok & Hv & Hwf').
      destruct (TensorNetwork.contract_ind tn x h) as [r h1]. simpl in *. subst r.
      apply elem_of_cons in Hin as [-> | Hin]; [congruence |].
      destruct (IH h1 Hwf' Hin) as (ind' & h' & Hin' & Hrun).
      * unfold present. rewrite Hv.
        destruct (existsb (occurs ind) (contract_view x (view h tn))) eqn:E; [| done].
        apply contract_view_present in E. unfold present in Hp. congruence.
      * exists ind', h'. split; [by right | done].
    + exists x, h. split; [by left | done].
Qed.

Lemma clone_present h n ind :
  wf_net h n -> present (clone_store h n) (clone_ref h) ind = present h n ind.
Proof. intros Hwf. unfold present. by rewrite clone_view. Qed.

(** C2, as the code has it.  A label that a contraction method's own
    check looks up in the clone's [ind_map] and finds missing makes the call
    fail with a [ValueError] whose message carries exactly that label:
    ["Index '<label>' not found in the tensor network."], followed by
    ["after fusing."] in [fuse_and_contract_indices].  In particular, on a
    network where no tensor has leg [z], [contract_indices([z])] raises the
    [ValueError] whose message names [z]; and [contract_indices] never
    returns when one of its labels is absent from the owned network. *)
Theorem missing_label_raises_value_error self h :
  wf_net h (TensorNetworkCode.network self) ->
  let n := TensorNetworkCode.network self in
  (forall k ind,
     check_finds_missing self h k ind ->
     fst (run_call self k h) =
       Raise (ValueError ("Index '" +:+ ind +:+
                          "' not found in the tensor network" +:+ message_end k))) /\
  (forall z,
     present h n z = false ->
     fst (TensorNetworkCode.contract_indices self [z] h) =
       Raise (ValueError ("Index '" +:+ z +:+ "' not found in the tensor network."))) /\
  (forall indices ind,
     ind ∈ indices -> present h n ind = false ->
     exists ind',
       ind' ∈ indices /\
       fst (TensorNetworkCode.contract_indices self indices h) =
         Raise (ValueError ("Index '" +:+ ind' +:+
                            "' not found in the tensor network."))).
Proof.
  intros Hwf n. split; [| split].
  - intros k ind Hmiss. destruct k as [indices | ind1 ind2 | ind1 ind2]; simpl in *.
    + destruct Hmiss as (pre & post & h1 & -> & Hpre & Hp).
      rewrite contract_indices_eq, for_each_app, Hpre. simpl.
      unfold bind. by rewrite (contract_step_absent _ _ _ Hp).
    + destruct Hmiss as [-> Hp]. rewrite fuse_and_contract_indices_eq.
      cbv zeta. by rewrite Hp.
    + rewrite contract_two_indices_eq. cbv zeta.
      destruct Hmiss as [[-> Hp] | (-> & Hp1 & Hp2)].
      * by rewrite Hp.
      * by rewrite Hp1, Hp2.
  - intros z Hz. rewrite contract_indices_eq. simpl. unfold bind.
    rewrite contract_step_absent; [done |]. by rewrite clone_present.
  - intros indices ind Hin Hp. rewrite contract_indices_eq.
    destruct (for_each_contract_step_fails (clone_ref h) ind indices
                (clone_store h n)) as (ind' & h' & Hin' & Hrun).
    + apply clone_wf.
    + done.
    + by rewrite clone_present.
    + fold n. rewrite Hrun. eauto.
Qed.

(** ** Sequential contraction *)

Lemma filter_nonempty_exists {A} (f : A -> bool) (l : list A) :
  1 <= length (filter (fun x => f x) l) -> existsb f l = true.
Proof.
  intros Hlen. destruct (filter (fun x => f x) l) as [|x l'] eqn:E.
  - simpl in Hlen. lia.
  - assert (Hx : x ∈ filter (fun x => f x) l) by (rewrite E; by left).
    apply list_elem_of_filter in Hx as [Hfx Hx].
    apply existsb_exists. exists x. split; [by apply list_elem_of_In |].
    by apply Is_true_true.
Qed.

Lemma existsb_filter_negb {A} (f : A -> bool) (l : list A) :
  existsb f (filter (fun x => negb (f x)) l) = false.
Proof.
  destruct (existsb f (filter (fun x => negb (f x)) l)) eqn:E; [| done].
  apply existsb_exists in E as (x & Hx & Hf).
  apply list_elem_of_In, list_elem_of_filter in Hx as [Hn _].
  rewrite Hf in Hn. done.
Qed.

Lemma filter_idemp {A} (f : A -> bool) (l : list A) :
  filter (fun x => f x) (filter (fun x => f x) l) = filter (fun x => f x) l.
Proof.
  induction l as [|x l IH]; [done |].
  rewrite filter_cons. destruct (f x) eqn:E; simpl; [| done].
  rewrite filter_cons, E. simpl. by rewrite IH.
Qed.

(** A label held by two or more tensors is summed away when they are
    merged. *)
Lemma contract_view_removes ind (v : list Tensor) :
  2 <= length (filter (fun t => occurs ind t) v) ->
  existsb (occurs ind) (contract_view ind v) = false.
Proof.
  intros Hlen. unfold contract_view. rewrite existsb_app. simpl.
  rewrite existsb_filter_negb, orb_false_r. simpl.
  destruct (occurs ind (tensor_contract _ _)) eqn:E; [| done].
  apply tensor_contract_inds, list_elem_of_filter in E as [Hkept _].
  unfold n_owners in Hkept. rewrite filter_idemp in Hkept.
  rewrite Nat.eqb_refl in Hkept. simpl in Hkept.
  apply Is_true_true, Nat.eqb_eq in Hkept. lia.
Qed.

Lemma for_each_contract_step_ok tn indices : forall h h1,
  for_each indices (contract_step tn) h = (Ok tt, h1) ->
  for_each indices (TensorNetwork.contract_ind tn) h = (Ok tt, h1).
Proof.
  induction indices as [|x indices IH]; intros h h1; simpl; [done |].
  unfold bind. rewrite contract_step_eq.
  destruct (present h tn x); [| done].
  destruct (TensorNetwork.contract_ind tn x h) as [[[] | e] h2]; [| done].
  apply IH.
Qed.

(** C5. [contract_two_indices(ind1, ind2)] checks both labels in the
    clone's [ind_map] before any contraction, [ind1] first: when [ind1] is
    missing the [ValueError] reads ["Index '<ind1>' not found in the tensor
    network."] whatever [ind2] is, when only [ind2] is missing it reads the
    same with [ind2], and in both cases the clone is untouched.
    When both are there it contracts [ind1] and then [ind2] with no further
    check; so when the first contraction removes [ind2], the second one
    fails with the missing-label error for [ind2], although [ind2] was in
    the map at call time.  For a well-formed network the clone's map holds
    the labels of the owned network. *)
Theorem contract_two_indices_checks_then_contracts self ind1 ind2 h :
  let n := TensorNetworkCode.network self in
  let tn := clone_ref h in
  let hc := clone_store h n in
  let run := TensorNetworkCode.contract_two_indices self ind1 ind2 h in
  (present hc tn ind1 = false ->
     run = (Raise (ValueError
                     ("Index '" +:+ ind1 +:+ "' not found in the tensor network.")),
            hc)) /\
  (present hc tn ind1 = true -> present hc tn ind2 = false ->
     run = (Raise (ValueError
                     ("Index '" +:+ ind2 +:+ "' not found in the tensor network.")),
            hc)) /\
  (present hc tn ind1 = true -> present hc tn ind2 = true ->
     let h1 := snd (TensorNetwork.contract_ind tn ind1 hc) in
     fst (TensorNetwork.contract_ind tn ind1 hc) = Ok tt /\
     run = match TensorNetwork.contract_ind tn ind2 h1 with
           | (Ok _, h2) => (Ok tn, h2)
           | (Raise e, h2) => (Raise e, h2)
           end /\
     (present h1 tn ind2 = false -> run = (Raise (KeyError ind2), h1))) /\
  (wf_net h n -> forall ind, present hc tn ind = present h n ind).
Proof.
  intros n tn hc run. subst run. rewrite contract_two_indices_eq. cbv zeta.
  fold n tn hc. split; [| split; [| split]].
  - by intros ->.
  - by intros -> ->.
  - intros Hp1 Hp2. rewrite Hp1, Hp2. simpl.
    pose proof (contract_ind_present _ _ _ Hp1) as Hok.
    unfold bind.
    destruct (TensorNetwork.contract_ind tn ind1 hc) as [r h1].
    simpl in *. subst r. split; [done |]. split.
    + by destruct (TensorNetwork.contract_ind tn ind2 h1) as [[[] | e] h2].
    + intros Hp3. by rewrite (contract_ind_absent _ _ _ Hp3).
  - intros Hwf ind. by apply clone_present.
Qed.

(** C6. [contract_indices(labels)] handles the labels in sequence order,
    each one checked against the clone's current [ind_map] and then
    contracted before the next is looked at.  When the labels [pre] have
    been handled, the clone is what contracting them one after the other
    gives; if the next label is then absent, the call fails there, naming
    it, with those contractions done on the clone; if it is present, the
    call goes on by contracting it. *)
Theorem contract_indices_interleaves self pre ind post h h1 :
  let n := TensorNetworkCode.network self in
  let tn := clone_ref h in
  let hc := clone_store h n in
  for_each pre (contract_step tn) hc = (Ok tt, h1) ->
  for_each pre (TensorNetwork.contract_ind tn) hc = (Ok tt, h1) /\
  (present h1 tn ind = false ->
     TensorNetworkCode.contract_indices self (pre ++ ind :: post) h =
       (Raise (ValueError (TensorNetworkCode.not_found ind)), h1)) /\
  (present h1 tn ind = true ->
     TensorNetworkCode.contract_indices self (pre ++ ind :: post) h =
       match (TensorNetwork.contract_ind tn ind ;;;
              for_each post (contract_step tn)) h1 with
       | (Ok _, h') => (Ok tn, h')
       | (Raise e, h') => (Raise e, h')
       end).
Proof.
  intros n tn hc Hpre. split; [by apply for_each_contract_step_ok |].
  rewrite contract_indices_eq, for_each_app. fold n tn hc. rewrite Hpre.
  simpl. split; intros Hp.
  - unfold bind. by rewrite contract_step_eq, Hp.
  - unfold bind. by rewrite contract_step_eq, Hp.
Qed.

(** C9. [contract_two_indices(x, x)]: when [x] is carried by two or more
    tensors of the owned network, both up-front checks pass, [x] is
    contracted once on the clone, which removes it from the clone's
    [ind_map], and the second contraction of [x] fails on the missing
    label.  The call never returns a network. *)
Theorem contract_two_indices_same_label_fails self x h :
  wf_net h (TensorNetworkCode.network self) ->
  2 <= length (TensorNetwork.owners h (TensorNetworkCode.network self) x) ->
  let n := TensorNetworkCode.network self in
  let tn := clone_ref h in
  let hc := clone_store h n in
  let h1 := snd (TensorNetwork.contract_ind tn x hc) in
  present hc tn x = true /\
  fst (TensorNetwork.contract_ind tn x hc) = Ok tt /\
  present h1 tn x = false /\
  TensorNetworkCode.contract_two_indices self x x h = (Raise (KeyError x), h1).
Proof.
  intros Hwf Hshared n tn hc h1. rewrite owners_length in Hshared. fold n in Hshared.
  assert (Hp : present hc tn x = true).
  { unfold hc, tn. rewrite clone_present by done.
    apply filter_nonempty_exists. lia. }
  destruct (contract_ind_ok tn x hc (clone_wf h n) Hp) as (Hok & Hv & _).
  fold h1 in Hv. unfold hc, tn in Hv. rewrite clone_view in Hv by done.
  assert (Hgone : present h1 tn x = false).
  { unfold present. unfold tn. rewrite Hv. by apply contract_view_removes. }
  repeat split; try done.
  rewrite contract_two_indices_eq. cbv zeta. fold n tn hc. rewrite Hp. simpl.
  unfold bind. subst h1.
  destruct (TensorNetwork.contract_ind tn x hc) as [r h1].
  simpl in *. subst r. by rewrite (contract_ind_absent _ _ _ Hgone).
Qed.

(** ** Fusion *)

Lemma existsb_false_Forall {A} (f : A -> bool) (l : list A) :
  existsb f l = false -> Forall (fun x => f x = false) l.
Proof.
  induction l as [|x l IH]; simpl; [by constructor |].
  intros [Hx Hl]%orb_false_iff. constructor; auto.
Qed.

(** The store after the renaming pass of [fuse_and_contract_indices]. *)
Lemma fuse_rename_store self ind1 ind2 h :
  let n := TensorNetworkCode.network self in
  let tn := clone_ref h in
  let hc := clone_store h n in
  let hr := snd (for_each (net_locs hc tn)
                          (fun t => reindex_ t [(ind2, ind1)]) hc) in
  wf_net h n ->
  view hr tn = map (renamed [(ind2, ind1)]) (view h n) /\ wf_net hr tn.
Proof.
  intros n tn hc hr Hwf. subst hr. rewrite for_each_reindex. cbn [snd].
  destruct (rename_pass_view [(ind2, ind1)] hc tn (clone_wf h n))
    as (_ & Hv & Hwf').
  split; [| done]. rewrite Hv. unfold hc, tn. by rewrite clone_view.
Qed.

(** C10. [fuse_and_contract_indices(ind1, ind2)] does not check [ind2]:
    when no tensor of the owned network carries [ind2] and [ind1] is in its
    [ind_map], the renaming pass leaves the clone as it is, the call raises
    nothing, and it returns what [contract_indices([ind1])] returns, in the
    same store. *)
Theorem fuse_with_absent_second_label self ind1 ind2 h :
  wf_net h (TensorNetworkCode.network self) ->
  present h (TensorNetworkCode.network self) ind1 = true ->
  present h (TensorNetworkCode.network self) ind2 = false ->
  let n := TensorNetworkCode.network self in
  let tn := clone_ref h in
  let hc := clone_store h n in
  snd (for_each (net_locs hc tn) (fun t => reindex_ t [(ind2, ind1)]) hc) = hc /\
  TensorNetworkCode.fuse_and_contract_indices self ind1 ind2 h =
    TensorNetworkCode.contract_indices self [ind1] h /\
  fst (TensorNetworkCode.fuse_and_contract_indices self ind1 ind2 h) = Ok tn.
Proof.
  intros Hwf Hp1 Hp2 n tn hc.
  assert (Hpass : snd (for_each (net_locs hc tn)
                         (fun t => reindex_ t [(ind2, ind1)]) hc) = hc).
  { rewrite for_each_reindex. cbn [snd]. rewrite rename_pass_id; [reflexivity |].
    assert (Hc2 : present hc tn ind2 = false).
    { unfold hc, tn. by rewrite clone_present. }
    unfold present, view in Hc2. apply existsb_false_Forall in Hc2.
    apply Forall_fmap in Hc2. eapply Forall_impl; [exact Hc2 |].
    intros l Hl. simpl in Hl. by apply renamed_id. }
  assert (Hc1 : present hc tn ind1 = true).
  { unfold hc, tn. by rewrite clone_present. }
  destruct (contract_ind_ok tn ind1 hc (clone_wf h n) Hc1) as (Hok & Hv & _).
  assert (Hfuse : TensorNetworkCode.fuse_and_contract_indices self ind1 ind2 h =
                  (Ok tn, snd (TensorNetwork.contract_ind tn ind1 hc))).
  { rewrite fuse_and_contract_indices_eq. cbv zeta. fold n tn hc.
    rewrite Hpass, Hc1. simpl. unfold bind.
    destruct (TensorNetwork.contract_ind tn ind1 hc) as [r h1].
    simpl in *. by subst r. }
  split; [done |]. split.
  - rewrite Hfuse, contract_indices_eq. fold n tn hc. simpl. unfold bind.
    rewrite contract_step_eq, Hc1.
    destruct (TensorNetwork.contract_ind tn ind1 hc) as [r h1].
    simpl in *. by subst r.
  - by rewrite Hfuse.
Qed.

Lemma rename_then_contract_eq self a b h :
  let n := TensorNetworkCode.network self in
  rename_then_contract self a b h =
    TensorNetworkCode.contract_indices self [a]
      (mk_heap (rename_pass [(b, a)] (tens h) (net_locs h n)) (nets h)).
Proof.
  intros n. unfold rename_then_contract, bind at 1.
  unfold TensorNetworkCode.get_tensors, TensorNetwork.tensors, inspect.
  unfold bind at 1. by rewrite for_each_reindex.
Qed.

(** C4. Fusion is renaming followed by contraction:
    [fuse_and_contract_indices(a, b)] and "rename [b] to [a] on every tensor
    of the network, then [contract_indices([a])]" end alike.  When [a] is a
    leg of some tensor after the renaming, both return a network holding the
    same tensors, with the same arrays; otherwise both raise.  This holds
    for every well-formed network, whether or not a tensor carries [a]
    twice. *)
Theorem fuse_is_rename_then_contract self a b h :
  wf_net h (TensorNetworkCode.network self) ->
  let n := TensorNetworkCode.network self in
  let v := map (renamed [(b, a)]) (view h n) in
  let r1 := TensorNetworkCode.fuse_and_contract_indices self a b h in
  let r2 := rename_then_contract self a b h in
  same_result r1 r2 /\
  (existsb (occurs a) v = true ->
     fst r1 = Ok (clone_ref h) /\ fst r2 = Ok (clone_ref h)).
Proof.
  intros Hwf n v r1 r2.
  set (tn := clone_ref h). set (hc := clone_store h n).
  (* the fused call *)
  destruct (fuse_rename_store self a b h Hwf) as [Hv1 Hwf1].
  fold n tn hc in Hv1, Hwf1. fold v in Hv1.
  assert (Hr1 : r1 =
    if existsb (occurs a) v
    then (Ok tn, snd (TensorNetwork.contract_ind tn a
            (snd (for_each (net_locs hc tn) (fun t => reindex_ t [(b, a)]) hc))))
    else (Raise (ValueError (TensorNetworkCode.not_found_after_fusing a)),
          snd (for_each (net_locs hc tn) (fun t => reindex_ t [(b, a)]) hc))).
  { unfold r1. rewrite fuse_and_contract_indices_eq. cbv zeta. fold n tn hc.
    set (hr := snd (for_each _ _ hc)) in *.
    unfold present. rewrite Hv1.
    destruct (existsb (occurs a) v) eqn:E; simpl; [| done].
    unfold bind.
    assert (Hp : present hr tn a = true) by (unfold present; by rewrite Hv1).
    pose proof (contract_ind_present _ _ _ Hp) as Hok.
    destruct (TensorNetwork.contract_ind tn a hr) as [r h1].
    simpl in *. by subst r. }
  (* renaming the owned network, then contracting *)
  set (h0 := mk_heap (rename_pass [(b, a)] (tens h) (net_locs h n)) (nets h)).
  destruct (rename_pass_view [(b, a)] h n Hwf) as (_ & Hv0 & Hwf0).
  fold h0 in Hv0, Hwf0. fold v in Hv0.
  assert (Htn : clone_ref h0 = tn) by done.
  assert (Hv2 : view (clone_store h0 n) tn = v).
  { rewrite <- Htn. by rewrite clone_view. }
  assert (Hr2 : r2 =
    if existsb (occurs a) v
    then (Ok tn, snd (TensorNetwork.contract_ind tn a (clone_store h0 n)))
    else (Raise (ValueError (TensorNetworkCode.not_found a)), clone_store h0 n)).
  { unfold r2. rewrite rename_then_contract_eq. cbv zeta. fold n h0.
    rewrite contract_indices_eq. fold n. rewrite Htn. simpl. unfold bind.
    rewrite contract_step_eq. unfold present. rewrite Hv2.
    destruct (existsb (occurs a) v) eqn:E; simpl; [| done].
    assert (Hp : present (clone_store h0 n) tn a = true)
      by (unfold present; by rewrite Hv2).
    pose proof (contract_ind_present _ _ _ Hp) as Hok.
    destruct (TensorNetwork.contract_ind tn a (clone_store h0 n)) as [r h1].
    simpl in *. by subst r. }
  assert (Hviews : existsb (occurs a) v = true ->
    view (snd r1) tn = contract_view a v /\ view (snd r2) tn = contract_view a v).
  { intros E. rewrite Hr1, Hr2, E. simpl. split.
    - destruct (contract_ind_ok tn a _ Hwf1) as (_ & Hv & _).
      + unfold present. by rewrite Hv1.
      + by rewrite Hv, Hv1.
    - assert (Hwf2 : wf_net (clone_store h0 n) tn).
      { rewrite <- Htn. apply clone_wf. }
      destruct (contract_ind_ok tn a _ Hwf2) as (_ & Hv & _).
      + unfold present. by rewrite Hv2.
      + by rewrite Hv, Hv2. }
  split.
  - destruct (existsb (occurs a) v) eqn:E.
    + destruct (Hviews eq_refl) as [H1 H2].
      rewrite Hr1, Hr2 in *. simpl in *. congruence.
    + rewrite Hr1, Hr2. done.
  - intros E. destruct (Hviews E) as [H1 H2].
    rewrite Hr1, Hr2, E in *. done.
Qed.

(** ** Adding a tensor *)

Lemma add_tensor_eq n t h :
  TensorNetwork.add_tensor n t h =
    (Ok tt,
     mk_heap (tens h ++ [deref h t])
             (<[n := net_locs h n ++ [length (tens h)]]> (nets h))).
Proof. reflexivity. Qed.

Lemma owners_absent h n ind :
  present h n ind = false -> TensorNetwork.owners h n ind = [].
Proof.
  intros Hp. unfold present, view in Hp. apply existsb_false_Forall in Hp.
  apply Forall_fmap in Hp. unfold TensorNetwork.owners.
  induction Hp as [|l ls Hl _ IH]; [done |].
  assert (Hh : TensorNetwork.has_ind h ind l = false) by exact Hl.
  rewrite filter_cons, Hh. simpl. exact IH.
Qed.

(** C8. [add_tensor(t)] works on the owned network itself: no network
    object is created, the call returns without raising, a copy of [t] is
    appended to the tensor collection, every label of [t] is mapped by
    [ind_map] to its previous owners followed by the new tensor (also when
    the label already had an owner), the other labels keep their owners,
    and [get_tensors] shows the longer collection afterwards. *)
Theorem add_tensor_mutates_owned_network self t h :
  wf_net h (TensorNetworkCode.network self) ->
  let n := TensorNetworkCode.network self in
  let new := length (tens h) in
  let h' := snd (TensorNetworkCode.add_tensor self t h) in
  fst (TensorNetworkCode.add_tensor self t h) = Ok tt /\
  length (nets h') = length (nets h) /\
  net_locs h' n = net_locs h n ++ [new] /\
  view h' n = view h n ++ [deref h t] /\
  (forall ind,
     assoc (TensorNetwork.ind_map h' n) ind =
       if occurs ind (deref h t)
       then Some (default [] (assoc (TensorNetwork.ind_map h n) ind) ++ [new])
       else assoc (TensorNetwork.ind_map h n) ind) /\
  fst (TensorNetworkCode.get_tensors self h') = Ok (net_locs h n ++ [new]) /\
  wf_net h' n.
Proof.
  intros Hwf n new h'. pose proof Hwf as (Hn & Hnd & Hall). fold n in Hn, Hnd, Hall.
  unfold TensorNetworkCode.add_tensor in *. fold n in h'. fold n.
  subst h'. rewrite add_tensor_eq. cbn [fst snd]. fold new.
  set (h' := mk_heap _ _).
  assert (Hlocs : net_locs h' n = net_locs h n ++ [new]).
  { unfold net_locs at 1, h'. simpl. by apply list_lookup_total_insert_eq. }
  assert (Hold : Forall (fun l => deref h' l = deref h l) (net_locs h n)).
  { eapply Forall_impl; [exact Hall |]. intros l Hl. simpl in Hl.
    unfold deref, h'. simpl. by apply lookup_total_app_l. }
  assert (Hnew : deref h' new = deref h t).
  { unfold deref at 1, h'. simpl.
    by apply (list_lookup_total_middle (tens h) []). }
  assert (Hview : view h' n = view h n ++ [deref h t]).
  { unfold view. rewrite Hlocs, map_app. simpl. rewrite Hnew. f_equal.
    by apply map_ext_Forall. }
  assert (Howners : forall ind,
            TensorNetwork.owners h' n ind =
            TensorNetwork.owners h n ind ++
              (if occurs ind (deref h t) then [new] else [])).
  { intros ind. unfold TensorNetwork.owners. rewrite Hlocs, filter_app. f_equal.
    - apply filter_ext_Forall. eapply Forall_impl; [exact Hold |].
      intros l Hl. simpl in Hl. unfold TensorNetwork.has_ind. by rewrite Hl.
    - rewrite filter_cons, filter_nil. unfold TensorNetwork.has_ind.
      rewrite Hnew. by destruct (occurs ind (deref h t)). }
  split; [done |]. split; [apply length_insert |]. split; [done |].
  split; [done |]. split; [| split].
  - intros ind. rewrite !assoc_ind_map, Howners.
    unfold present at 1. rewrite Hview, existsb_app. simpl.
    rewrite orb_false_r. fold (present h n ind).
    destruct (occurs ind (deref h t)), (present h n ind) eqn:Hp; simpl;
      try done.
    + by rewrite (owners_absent _ _ _ Hp).
    + by rewrite app_nil_r.
  - unfold TensorNetworkCode.get_tensors, TensorNetwork.tensors, inspect.
    simpl. fold n. by rewrite Hlocs.
  - unfold wf_net. rewrite Hlocs. split; [| split].
    + unfold h'. simpl. by rewrite length_insert.
    + apply NoDup_app. split; [done | split; [| apply NoDup_singleton]].
      intros x Hx Hx'. apply list_elem_of_singleton in Hx'. subst.
      rewrite Forall_forall in Hall. specialize (Hall _ Hx). unfold new in Hall. lia.
    + unfold h'. simpl. rewrite length_app. simpl. apply Forall_app. split.
      * eapply Forall_impl; [exact Hall |]. intros x Hx. simpl in *. lia.
      * apply Forall_singleton. unfold new. lia.
Qed.

(** ** Scenario A: the matrix product *)

Lemma contract_view_matrices (x11 x12 x21 x22 y11 y12 y21 y22 : Z)
    (tags1 tags2 : list string) :
  contract_view "b"
    [mk_Tensor (mk_ndarray [2; 2] [x11; x12; x21; x22]) ["a"; "b"]%string tags1;
     mk_Tensor (mk_ndarray [2; 2] [y11; y12; y21; y22]) ["b"; "c"]%string tags2] =
    [mk_Tensor
       (mk_ndarray [2; 2]
          [x11 * y11 + x12 * y21; x11 * y12 + x12 * y22;
           x21 * y11 + x22 * y21; x21 * y12 + x22 * y22]%Z)
       ["a"; "c"]%string
       (remove_dups (tags1 ++ tags2))].
Proof.
  set (A := mk_Tensor (mk_ndarray [2; 2] [x11; x12; x21; x22]) _ tags1).
  set (B := mk_Tensor (mk_ndarray [2; 2] [y11; y12; y21; y22]) _ tags2).
  assert (Hdata : data (tensor_contract [A; B] ["a"; "c"]%string) =
            mk_ndarray [2; 2]
              [x11 * y11 + x12 * y21; x11 * y12 + x12 * y22;
               x21 * y11 + x22 * y21; x21 * y12 + x22 * y22]%Z).
  { lazy -[Z.add Z.mul]. repeat f_equal; ring. }
  assert (Htags : tags (tensor_contract [A; B] ["a"; "c"]%string) =
                  remove_dups (tags1 ++ tags2)).
  { simpl. by rewrite app_nil_r. }
  change (contract_view "b" [A; B])
    with ([tensor_contract [A; B] ["a"; "c"]%string]).
  destruct (tensor_contract [A; B] ["a"; "c"]%string) as [d ix tg] eqn:E.
  assert (Hinds : ix = ["a"; "c"]%string).
  { change ix with (inds (mk_Tensor d ix tg)). by rewrite <- E. }
  simpl in *. by subst.
Qed.

(** C3. Scenario A: on a network of two 2x2 tensors with legs [(a, b)] and
    [(b, c)], [contract_indices([b])] returns a network with a single
    tensor; its legs are [a] and [c], its entries are those of the matrix
    product of the two arrays, summed over [b], and [b] is no longer a key
    of the result's [ind_map]. *)
Theorem contract_shared_leg_is_matrix_product
    self h (x11 x12 x21 x22 y11 y12 y21 y22 : Z) (tags1 tags2 : list string) :
  wf_net h (TensorNetworkCode.network self) ->
  view h (TensorNetworkCode.network self) =
    [mk_Tensor (mk_ndarray [2; 2] [x11; x12; x21; x22]) ["a"; "b"]%string tags1;
     mk_Tensor (mk_ndarray [2; 2] [y11; y12; y21; y22]) ["b"; "c"]%string tags2] ->
  let tn := clone_ref h in
  let r := TensorNetworkCode.contract_indices self ["b"%string] h in
  fst r = Ok tn /\
  view (snd r) tn =
    [mk_Tensor
       (mk_ndarray [2; 2]
          [x11 * y11 + x12 * y21; x11 * y12 + x12 * y22;
           x21 * y11 + x22 * y21; x21 * y12 + x22 * y22]%Z)
       ["a"; "c"]%string
       (remove_dups (tags1 ++ tags2))] /\
  assoc (TensorNetwork.ind_map (snd r) tn) "b" = None.
Proof.
  intros Hwf Hview tn r. set (n := TensorNetworkCode.network self) in *.
  set (hc := clone_store h n).
  assert (Hvc : view hc tn = view h n) by (by apply clone_view).
  assert (Hp : present hc tn "b" = true).
  { unfold present. by rewrite Hvc, Hview. }
  destruct (contract_ind_ok tn "b" hc (clone_wf h n) Hp) as (Hok & Hv & _).
  rewrite Hvc, Hview, contract_view_matrices in Hv.
  assert (Hr : r = (Ok tn, snd (TensorNetwork.contract_ind tn "b" hc))).
  { unfold r. rewrite contract_indices_eq. fold n tn hc. simpl. unfold bind.
    rewrite contract_step_eq, Hp.
    destruct (TensorNetwork.contract_ind tn "b" hc) as [r' h1].
    simpl in *. by subst r'. }
  rewrite Hr. simpl. split; [done |]. split; [done |].
  rewrite assoc_ind_map. unfold present. by rewrite Hv.
Qed.

(** ** The example networks *)

Example init_chain : fst ex_chain = Ok (ex_code [0; 1]).
Proof. reflexivity. Qed.

Example init_double : fst ex_double = Ok (ex_code [0; 2]).
Proof. reflexivity. Qed.

Example init_apart : fst ex_apart = Ok (ex_code [0; 3]).
Proof. reflexivity. Qed.

Example chain_view : view (snd ex_chain) 0 = [ex_T1; ex_T2].
Proof. reflexivity. Qed.

(** Scenario C of the specification: fusing [a] and [d] on tensors with
    legs [(a, b)] and [(d, c)] leaves one tensor with legs [(b, c)]. *)
Example scenario_C :
  let r := TensorNetworkCode.fuse_and_contract_indices (ex_code [0; 3])
             "a" "d" (snd ex_apart) in
  fst r = Ok 1 /\
  view (snd r) 1 =
    [mk_Tensor (mk_ndarray [2; 2] [26; 30; 38; 44]%Z) ["b"; "c"]%string
               ["T1"; "T4"]%string].
Proof. split; reflexivity. Qed.

(** Without a shared label the full contraction is the outer product. *)
Example scenario_outer_product :
  fst (TensorNetworkCode.contract (ex_code [0; 3]) (snd ex_apart)) =
    Ok (mk_Tensor
          (mk_ndarray [2; 2; 2; 2]
             [5; 6; 7; 8; 10; 12; 14; 16; 15; 18; 21; 24; 20; 24; 28; 32]%Z)
          ["a"; "b"; "d"; "c"]%string ["T1"; "T4"]%string).
Proof. reflexivity. Qed.

(** ** Full contraction: sums over label assignments *)

Lemma zsum_map_add {A} (F G : A -> Z) (l : list A) :
  zsum (map (fun i => (F i + G i)%Z) l) = (zsum (map F l) + zsum (map G l))%Z.
Proof. induction l as [|x l IH]; simpl; [done | rewrite IH; lia]. Qed.

Lemma zsum_map_mul {A} (c : Z) (F : A -> Z) (l : list A) :
  zsum (map (fun i => (c * F i)%Z) l) = (c * zsum (map F l))%Z.
Proof. induction l as [|x l IH]; simpl; [lia | rewrite IH; lia]. Qed.

Lemma zsum_map_ext {A} (F G : A -> Z) (l : list A) :
  (forall i, i ∈ l -> F i = G i) -> zsum (map F l) = zsum (map G l).
Proof.
  induction l as [|x l IH]; simpl; [done |].
  intros H. rewrite (H x) by (by left). rewrite IH; [done |].
  intros i Hi. apply H. by right.
Qed.

Lemma zsum_map_zero {A} (l : list A) : zsum (map (fun _ => 0%Z) l) = 0%Z.
Proof. induction l as [|x l IH]; simpl; [done | by rewrite IH]. Qed.

Lemma zsum_swap {A B} (F : A -> B -> Z) (l1 : list A) (l2 : list B) :
  zsum (map (fun i => zsum (map (fun j => F i j) l2)) l1) =
  zsum (map (fun j => zsum (map (fun i => F i j) l1)) l2).
Proof.
  induction l1 as [|x l1 IH]; simpl.
  - by rewrite zsum_map_zero.
  - by rewrite IH, <- zsum_map_add.
Qed.

Lemma value_cons l i e x :
  value ((l, i) :: e) x = if String.eqb x l then i else value e x.
Proof. unfold value. simpl. by destruct (String.eqb x l). Qed.

Lemma reads_mono X Y f :
  (forall x, x ∈ X -> x ∈ Y) -> reads X f -> reads Y f.
Proof. intros Hsub Hf e1 e2 He. apply Hf. intros x Hx. by apply He, Hsub. Qed.

Lemma reads_term (ts : list Tensor) : reads (all_inds ts) (fun e => term e ts).
Proof.
  induction ts as [|t ts IH]; intros e1 e2 He; simpl; [done |].
  f_equal.
  - f_equal. apply map_ext_in. intros x Hx. apply He.
    unfold all_inds. simpl. apply elem_of_app. left. by apply list_elem_of_In.
  - apply IH. intros x Hx. apply He.
    unfold all_inds. simpl. apply elem_of_app. by right.
Qed.

Lemma reads_esum size L : forall X f,
  reads (L ++ X) f -> reads X (fun e => esum size L e f).
Proof.
  induction L as [|l L IH]; intros X f Hf e1 e2 He; simpl.
  - by apply Hf.
  - apply zsum_map_ext. intros i _.
    apply (IH (l :: X)).
    + eapply reads_mono; [| exact Hf].
      intros x. simpl. rewrite !elem_of_app, !elem_of_cons, elem_of_app. tauto.
    + intros x Hx. rewrite !value_cons.
      destruct (String.eqb_spec x l) as [-> | Hne]; [done |].
      apply He. apply elem_of_cons in Hx as [-> | Hx]; done.
Qed.

(** The sum only looks at assignments that extend the given one by values
    within the sizes of the summed labels. *)
Lemma esum_ext s1 s2 L : forall e f g,
  (forall x, x ∈ L -> s1 x = s2 x) ->
  (forall e', (forall x, x ∈ L -> value e' x < s1 x) ->
              (forall x, x ∉ L -> value e' x = value e x) -> f e' = g e') ->
  esum s1 L e f = esum s2 L e g.
Proof.
  induction L as [|l L IH]; intros e f g Hs H; simpl.
  - apply H; [by intros x ?%not_elem_of_nil | done].
  - rewrite <- (Hs l) by (by left).
    apply zsum_map_ext. intros i Hi%elem_of_seq.
    apply IH.
    + intros x Hx. apply Hs. by right.
    + intros e' Hin Hout. apply H.
      * intros x Hx. destruct (decide (x ∈ L)) as [HL | HL]; [by apply Hin |].
        apply elem_of_cons in Hx as [-> | Hx]; [| done].
        rewrite (Hout l HL), value_cons, String.eqb_refl. lia.
      * intros x Hx. apply not_elem_of_cons in Hx as [Hne HL].
        rewrite (Hout x HL), value_cons.
        by rewrite (proj2 (String.eqb_neq x l)).
Qed.

Lemma fill_ext {R} s1 s2 outs : forall e (f g : list (string * nat) -> R),
  (forall x, x ∈ outs -> s1 x = s2 x) ->
  (forall e', (forall x, x ∈ outs -> value e' x < s1 x) ->
              (forall x, x ∉ outs -> value e' x = value e x) -> f e' = g e') ->
  fill s1 outs e f = fill s2 outs e g.
Proof.
  induction outs as [|l outs IH]; intros e f g Hs H; simpl.
  - f_equal. apply H; [by intros x ?%not_elem_of_nil | done].
  - rewrite <- (Hs l) by (by left).
    rewrite !flat_map_concat_map. f_equal.
    apply map_ext_in. intros i Hi%list_elem_of_In%elem_of_seq.
    apply IH.
    + intros x Hx. apply Hs. by right.
    + intros e' Hin Hout. apply H.
      * intros x Hx. destruct (decide (x ∈ outs)) as [HL | HL]; [by apply Hin |].
        apply elem_of_cons in Hx as [-> | Hx]; [| done].
        rewrite (Hout l HL), value_cons, String.eqb_refl. lia.
      * intros x Hx. apply not_elem_of_cons in Hx as [Hne HL].
        rewrite (Hout x HL), value_cons.
        by rewrite (proj2 (String.eqb_neq x l)).
Qed.

Lemma esum_app size L1 L2 f : forall e,
  esum size (L1 ++ L2) e f = esum size L1 e (fun e' => esum size L2 e' f).
Proof.
  induction L1 as [|l L1 IH]; intros e; simpl; [done |].
  apply zsum_map_ext. intros i _. apply IH.
Qed.

(** A factor that does not read the summed labels comes out of the sum. *)
Lemma esum_factor size X g f L : forall e,
  reads X g -> (forall x, x ∈ L -> x ∉ X) ->
  esum size L e (fun e' => (g e' * f e')%Z) = (g e * esum size L e f)%Z.
Proof.
  induction L as [|l L IH]; intros e Hg Hdis; simpl; [done |].
  rewrite <- zsum_map_mul. apply zsum_map_ext. intros i _.
  rewrite IH; [| done | intros x Hx; apply Hdis; by right].
  f_equal. apply Hg. intros x Hx. rewrite value_cons.
  destruct (String.eqb_spec x l) as [-> | Hne]; [| done].
  exfalso. by apply (Hdis l); [left |].
Qed.

(** The order in which distinct labels are summed does not matter. *)
Lemma esum_perm size X f L1 L2 :
  Permutation L1 L2 -> NoDup L1 -> reads X f ->
  forall e, esum size L1 e f = esum size L2 e f.
Proof.
  intros Hperm. induction Hperm as [| x l1 l2 Hp IH | x y l | l1 l2 l3 Hp1 IH1 Hp2 IH2];
    intros Hnd Hf e.
  - done.
  - simpl. apply zsum_map_ext. intros i _. apply IH; [| done].
    by apply NoDup_cons in Hnd as [_ ?].
  - simpl. rewrite zsum_swap. apply zsum_map_ext. intros i _.
    apply zsum_map_ext. intros j _.
    apply NoDup_cons in Hnd as [Hy _]. apply not_elem_of_cons in Hy as [Hyx _].
    apply (reads_esum size l X f).
    + eapply reads_mono; [| exact Hf]. intros z Hz. apply elem_of_app. by right.
    + intros z _. rewrite !value_cons.
      destruct (String.eqb_spec z x) as [-> | Hzx]; [| done].
      by rewrite (proj2 (String.eqb_neq x y)) by congruence.
  - rewrite IH1 by done. apply IH2; [| done]. by rewrite <- Hp1.
Qed.

(** ** Full contraction: reading an entry of a merged array *)

Lemma ravel_shift (ps : list (nat * nat)) : forall acc,
  fold_left (fun acc p => acc * snd p + fst p) ps acc =
  acc * n_entries (map snd ps)
  + fold_left (fun acc p => acc * snd p + fst p) ps 0.
Proof.
  induction ps as [|[i s] ps IH]; intros acc; simpl; [lia |].
  rewrite (IH (acc * s + i)), (IH i). unfold n_entries. simpl.
  fold (n_entries (map snd ps)). nia.
Qed.

Lemma map_snd_combine {A B} (l1 : list A) : forall (l2 : list B),
  length l1 = length l2 -> map snd (combine l1 l2) = l2.
Proof.
  induction l1 as [|x l1 IH]; intros [|y l2] Hlen; simpl in *; try done.
  f_equal. apply IH. lia.
Qed.

Lemma ravel_cons s shp v idx :
  length idx = length shp ->
  ravel (s :: shp) (v :: idx) = v * n_entries shp + ravel shp idx.
Proof.
  intros Hlen. unfold ravel. simpl. rewrite ravel_shift.
  by rewrite map_snd_combine.
Qed.

Lemma ravel_bound (size : string -> nat) (outs : list string) : forall vals,
  Forall2 (fun l v => v < size l) outs vals ->
  ravel (map size outs) vals < n_entries (map size outs).
Proof.
  induction outs as [|l outs IH]; intros vals HF;
    inversion HF as [|? v ? vals' Hv HF']; subst.
  - unfold ravel, n_entries. simpl. lia.
  - simpl. rewrite ravel_cons.
    + specialize (IH _ HF'). unfold n_entries in *. simpl. nia.
    + rewrite length_map. symmetry. by eapply Forall2_length.
Qed.

Lemma fill_length {R} (size : string -> nat) (outs : list string) :
  forall e (f : list (string * nat) -> R),
  length (fill size outs e f) = n_entries (map size outs).
Proof.
  induction outs as [|l outs IH]; intros e f; simpl; [done |].
  unfold n_entries. simpl. fold (n_entries (map size outs)).
  generalize 0 at 1. induction (size l) as [|n IHn]; intros a; simpl; [done |].
  rewrite length_app, IH, IHn. lia.
Qed.

Lemma nth_flat_map_blocks {A} (g : nat -> list A) (m : nat) (d : A) :
  (forall k, length (g k) = m) ->
  forall n a i j, i < n -> j < m ->
  nth (i * m + j) (flat_map g (seq a n)) d = nth j (g (a + i)) d.
Proof.
  intros Hlen. induction n as [|n IH]; intros a i j Hi Hj; [lia |].
  simpl. destruct i as [|i].
  - simpl. rewrite app_nth1 by (rewrite Hlen; lia). by rewrite Nat.add_0_r.
  - rewrite app_nth2 by (rewrite Hlen; nia).
    rewrite Hlen. replace (S i * m + j - m) with (i * m + j) by nia.
    rewrite IH by lia. f_equal. f_equal. lia.
Qed.

(** The entry at a multi-index within the shape is the value of the
    function at the assignment of the legs to that multi-index. *)
Lemma fill_nth (size : string -> nat) (outs : list string) : forall vals e f,
  Forall2 (fun l v => v < size l) outs vals ->
  nth (ravel (map size outs) vals) (fill size outs e f) 0%Z
  = f (rev (combine outs vals) ++ e).
Proof.
  induction outs as [|l outs IH]; intros vals e f HF;
    inversion HF as [|? v ? vals' Hv HF']; subst; [done |].
  simpl. rewrite ravel_cons by (rewrite length_map; symmetry; by eapply Forall2_length).
  rewrite (nth_flat_map_blocks _ (n_entries (map size outs))).
  - simpl. rewrite IH by done. by rewrite <- app_assoc.
  - intros k. apply fill_length.
  - done.
  - by apply ravel_bound.
Qed.

Lemma value_rev_combine e (K : list string) : forall x,
  x ∈ K -> value (rev (combine K (map (value e) K))) x = value e x.
Proof.
  assert (Hgen : forall (ps : list (string * nat)) x,
            (forall p, In p ps -> snd p = value e (fst p)) ->
            (exists p, In p ps /\ fst p = x) ->
            value ps x = value e x).
  { induction ps as [|[k v] ps IH]; intros x Hall [p [Hp Hx]]; [done |].
    rewrite value_cons. destruct (String.eqb_spec x k) as [-> | Hne].
    - apply (Hall (k, v)). by left.
    - apply IH.
      + intros q Hq. apply Hall. by right.
      + destruct Hp as [<- | Hp]; [done |]. by exists p. }
  assert (Hkv : forall (K' : list string) k v,
            In (k, v) (combine K' (map (value e) K')) -> v = value e k).
  { induction K' as [|k' K' IHK]; simpl; [done |].
    intros k v [[= -> ->] | H]; [done | by apply IHK]. }
  intros x Hx. apply Hgen.
  - intros [k v] Hp%in_rev. simpl. by eapply Hkv.
  - exists (x, value e x). split; [| done].
    apply in_rev. rewrite rev_involutive.
    induction K as [|k K IHK]; [by apply not_elem_of_nil in Hx |].
    simpl. apply elem_of_cons in Hx as [-> | Hx]; [by left | right; by apply IHK].
Qed.

(** ** Full contraction: sizes *)

Lemma find_axis sz ix l :
  find (fun p : string * nat => String.eqb l (fst p)) (combine ix (map sz ix))
  = if existsb (String.eqb l) ix then Some (l, sz l) else None.
Proof.
  induction ix as [|i ix IH]; simpl; [done |].
  destruct (String.eqb_spec l i) as [-> | Hne]; simpl; [done | exact IH].
Qed.

Lemma find_app_first {A} (p : A -> bool) (l1 l2 : list A) :
  find p (l1 ++ l2) = match find p l1 with Some x => Some x | None => find p l2 end.
Proof. induction l1 as [|x l1 IH]; simpl; [done |]. by destruct (p x). Qed.

Lemma ind_size_sized sz ts l :
  sized sz ts -> l ∈ all_inds ts -> ind_size ts l = sz l.
Proof.
  unfold sized, ind_size, axes, all_inds.
  induction ts as [|t ts IH]; intros Hs Hl; simpl in *.
  - by apply not_elem_of_nil in Hl.
  - apply Forall_cons in Hs as [Ht Hs]. rewrite find_app_first, Ht, find_axis.
    destruct (existsb (String.eqb l) (inds t)) eqn:E; [done |].
    apply IH; [done |]. apply elem_of_app in Hl as [Hl | Hl]; [| done].
    apply occurs_elem in Hl. unfold occurs in Hl. congruence.
Qed.

(** ** Full contraction: the tensors merged and the tensors left *)

Lemma term_app e (v1 v2 : list Tensor) : term e (v1 ++ v2) = (term e v1 * term e v2)%Z.
Proof. induction v1 as [|t v1 IH]; simpl; [lia | rewrite IH; lia]. Qed.

Lemma term_split e (p : Tensor -> bool) v :
  term e v = (term e (filter (fun t => negb (p t)) v)
              * term e (filter (fun t => p t) v))%Z.
Proof.
  induction v as [|t v IH]; simpl; [done |].
  rewrite !filter_cons, IH. destruct (p t); simpl; lia.
Qed.

Lemma n_owners_split (p : Tensor -> bool) v x :
  n_owners v x = n_owners (filter (fun t => p t) v) x
               + n_owners (filter (fun t => negb (p t)) v) x.
Proof.
  unfold n_owners. induction v as [|t v IH]; simpl; [done |].
  rewrite !filter_cons. destruct (p t) eqn:E; simpl;
    rewrite !filter_cons; destruct (occurs x t); simpl; lia.
Qed.

Lemma n_owners_app (v1 v2 : list Tensor) x : n_owners (v1 ++ v2) x = n_owners v1 x + n_owners v2 x.
Proof. unfold n_owners. by rewrite filter_app, length_app. Qed.

Lemma n_owners_pos (v : list Tensor) x : 1 <= n_owners v x <-> x ∈ all_inds v.
Proof.
  rewrite all_inds_elem. unfold n_owners. split.
  - apply filter_nonempty_exists.
  - intros (t & Ht & Hocc)%existsb_exists.
    assert (Hin : t ∈ filter (fun t => occurs x t) v).
    { apply list_elem_of_filter. split; [by rewrite Hocc | by apply list_elem_of_In]. }
    destruct (filter (fun t => occurs x t) v); [by apply not_elem_of_nil in Hin |].
    simpl. lia.
Qed.

Lemma all_inds_app (v1 v2 : list Tensor) : all_inds (v1 ++ v2) = all_inds v1 ++ all_inds v2.
Proof. unfold all_inds. by rewrite map_app, concat_app. Qed.

Lemma existsb_eqb_elem (x : string) (ls : list string) :
  existsb (String.eqb x) ls = true <-> x ∈ ls.
Proof.
  rewrite existsb_exists. split.
  - intros (y & Hy & ->%String.eqb_eq). by apply list_elem_of_In.
  - intros Hx. exists x. split; [by apply list_elem_of_In | apply String.eqb_refl].
Qed.

Lemma summed_inds_elem x (ts : list Tensor) out :
  x ∈ summed_inds ts out <-> x ∈ all_inds ts /\ x ∉ out.
Proof.
  unfold summed_inds. rewrite list_elem_of_filter, uniq_elem.
  rewrite <- (existsb_eqb_elem x out).
  destruct (existsb (String.eqb x) out); simpl; intuition congruence.
Qed.

Lemma NoDup_summed_inds (ts : list Tensor) out : NoDup (summed_inds ts out).
Proof. apply NoDup_filter, NoDup_uniq. Qed.

Lemma contracted_inds_elem x (sel net : list Tensor) :
  x ∈ contracted_inds sel net <->
  x ∈ all_inds sel /\ (n_owners sel x <> n_owners net x \/ n_owners net x = 1).
Proof.
  unfold contracted_inds. rewrite list_elem_of_filter, uniq_elem.
  destruct (Nat.eqb_spec (n_owners sel x) (n_owners net x)) as [E1 | E1];
    destruct (Nat.eqb_spec (n_owners net x) 1) as [E2 | E2]; simpl;
    split; intros [H1 H2]; split; try done; try tauto; try lia.
Qed.

(** The array of a merged tensor, with the sizes of the network. *)
Lemma tensor_contract_data sz ts out :
  sized sz ts -> (forall x, x ∈ out -> x ∈ all_inds ts) ->
  data (tensor_contract ts out) =
    {| shape := map sz out;
       buf := fill sz out []
                (fun e => esum sz (summed_inds ts out) e (fun e' => term e' ts)) |}.
Proof.
  intros Hs Hout. unfold tensor_contract. cbn [data]. f_equal.
  - apply map_ext_in. intros x Hx%list_elem_of_In. apply ind_size_sized; auto.
  - fold (summed_inds ts out). apply fill_ext.
    + intros x Hx. apply ind_size_sized; auto.
    + intros e' _ _. apply esum_ext; [| done].
      intros x [Hx _]%summed_inds_elem. by apply ind_size_sized.
Qed.

(** An entry of a merged tensor, read at the values an assignment gives to
    its legs, is the sum over the merged labels of the products of the
    inputs' entries. *)
Lemma item_tensor_contract sz ts out e :
  sized sz ts -> (forall x, x ∈ out -> x ∈ all_inds ts) ->
  (forall x, x ∈ out -> value e x < sz x) ->
  item (data (tensor_contract ts out)) (map (value e) out) =
  esum sz (summed_inds ts out) e (fun e' => term e' ts).
Proof.
  intros Hs Hout Hin. rewrite (tensor_contract_data sz) by done.
  unfold item. cbn [shape buf]. rewrite fill_nth.
  - rewrite app_nil_r. apply (reads_esum sz (summed_inds ts out) out).
    + eapply reads_mono; [| apply reads_term].
      intros x Hx. apply elem_of_app.
      destruct (decide (x ∈ out)); [by right | left].
      by apply summed_inds_elem.
    + intros x Hx. by apply value_rev_combine.
  - clear Hout. induction out as [|x out IH]; simpl; constructor.
    + apply Hin. by left.
    + apply IH. intros y Hy. apply Hin. by right.
Qed.

Section Step.

Variable sz : string -> nat.
Variable outs : list string.
Variable ind : string.
Variable v : list Tensor.
Hypothesis Hs : sized sz v.
Hypothesis HO : forall x, x ∈ outs -> n_owners v x = 1.

Let sel := filter (fun t => occurs ind t) v.
Let rest := filter (fun t => negb (occurs ind t)) v.
Let K := contracted_inds sel v.
Let N := tensor_contract sel K.

Local Lemma step_owners x : n_owners v x = n_owners sel x + n_owners rest x.
Proof. apply (n_owners_split (occurs ind)). Qed.

Local Lemma step_sized_sel : sized sz sel.
Proof.
  apply Forall_forall. intros t [_ Ht]%list_elem_of_filter.
  by eapply Forall_forall in Hs.
Qed.

Local Lemma step_sized_rest : sized sz rest.
Proof.
  apply Forall_forall. intros t [_ Ht]%list_elem_of_filter.
  by eapply Forall_forall in Hs.
Qed.

Local Lemma step_K_sub x : x ∈ K -> x ∈ all_inds sel.
Proof. by intros [? _]%contracted_inds_elem. Qed.

Local Lemma step_view : contract_view ind v = rest ++ [N].
Proof. reflexivity. Qed.

Local Lemma step_all_inds : all_inds (contract_view ind v) = all_inds rest ++ K.
Proof.
  rewrite step_view, all_inds_app. f_equal. unfold all_inds. simpl.
  by rewrite app_nil_r.
Qed.

Local Lemma step_owners_new x :
  n_owners (contract_view ind v) x
  = n_owners rest x + (if decide (x ∈ K) then 1 else 0).
Proof.
  rewrite step_view, n_owners_app. f_equal. unfold n_owners.
  rewrite filter_cons, filter_nil.
  destruct (occurs x N) eqn:E; simpl.
  - apply tensor_contract_inds in E. by rewrite decide_True.
  - rewrite decide_False; [done |]. intros Hx.
    apply (tensor_contract_inds x sel K) in Hx. fold N in Hx. congruence.
Qed.

Lemma contract_view_sized : sized sz (contract_view ind v).
Proof.
  rewrite step_view. apply Forall_app. split; [apply step_sized_rest |].
  constructor; [| constructor]. unfold N, tensor_contract. cbn [data shape inds].
  apply map_ext_in. intros x Hx%list_elem_of_In.
  apply ind_size_sized; [apply step_sized_sel | by apply step_K_sub].
Qed.

Lemma contract_view_open x : x ∈ outs -> n_owners (contract_view ind v) x = 1.
Proof.
  intros Hx. pose proof (HO x Hx) as H1. pose proof (step_owners x) as H2.
  rewrite step_owners_new.
  destruct (decide (x ∈ K)) as [HK | HK].
  - apply contracted_inds_elem in HK as [HK _]. apply n_owners_pos in HK.
    fold sel in HK. lia.
  - destruct (decide (x ∈ all_inds sel)) as [Hsel | Hsel].
    + exfalso. apply HK, contracted_inds_elem. split; [done | by right].
    + assert (n_owners sel x = 0); [| lia].
      destruct (n_owners sel x) eqn:E; [done |].
      exfalso. apply Hsel, n_owners_pos. lia.
Qed.

Local Lemma step_perm :
  Permutation (summed_inds v outs)
              (summed_inds (contract_view ind v) outs ++ summed_inds sel K).
Proof.
  assert (Hchar : forall x,
    (x ∈ summed_inds v outs <->
       1 <= n_owners sel x + n_owners rest x /\ x ∉ outs) /\
    (x ∈ summed_inds (contract_view ind v) outs <->
       (1 <= n_owners rest x \/ x ∈ K) /\ x ∉ outs) /\
    (x ∈ summed_inds sel K <-> 1 <= n_owners sel x /\ x ∉ K) /\
    (x ∈ K <-> 1 <= n_owners sel x /\ (1 <= n_owners rest x \/ n_owners v x = 1)) /\
    (x ∈ outs -> n_owners v x = 1) /\
    n_owners v x = n_owners sel x + n_owners rest x).
  { intros x. pose proof (step_owners x) as Hsplit.
    assert (HK : x ∈ K <->
              1 <= n_owners sel x /\ (1 <= n_owners rest x \/ n_owners v x = 1)).
    { unfold K. rewrite contracted_inds_elem, <- n_owners_pos. lia. }
    split; [| split; [| split; [| split; [| split]]]]; try done.
    - rewrite summed_inds_elem, <- n_owners_pos. by rewrite Hsplit.
    - rewrite summed_inds_elem, step_all_inds, elem_of_app, <- n_owners_pos. done.
    - rewrite summed_inds_elem, <- n_owners_pos. done.
    - apply HO. }
  apply NoDup_Permutation.
  - apply NoDup_summed_inds.
  - apply NoDup_app. split; [apply NoDup_summed_inds |].
    split; [| apply NoDup_summed_inds].
    intros x H1 H2. destruct (Hchar x) as (_ & HL' & HS & HK & _ & _).
    apply HL' in H1. apply HS in H2. rewrite HK in H1, H2. lia.
  - intros x. rewrite elem_of_app.
    destruct (Hchar x) as (HL & HL' & HS & HK & HOx & Hsplit).
    rewrite HL, HL', HS, HK.
    destruct (decide (x ∈ outs)) as [Hx | Hx]; [tauto |].
    split.
    + intros [H1 _]. destruct (decide (1 <= n_owners rest x)); [tauto |].
      destruct (decide (n_owners v x = 1)); [left | right]; split; auto; lia.
    + intros [[H1 _] | [H1 H2]]; split; auto; lia.
Qed.

Lemma contract_view_value e :
  (forall x, x ∈ outs -> value e x < sz x) ->
  esum sz (summed_inds (contract_view ind v) outs) e
       (fun e' => term e' (contract_view ind v))
  = esum sz (summed_inds v outs) e (fun e' => term e' v).
Proof.
  intros He.
  rewrite (esum_perm sz (all_inds v) _ _ _ step_perm (NoDup_summed_inds _ _)
             (reads_term v)).
  rewrite esum_app. apply esum_ext; [done |].
  intros e' Hin Hout.
  rewrite step_view, term_app. cbn [term]. rewrite Z.mul_1_r.
  change (inds N) with K.
  unfold N. rewrite (item_tensor_contract sz).
  - rewrite <- (esum_factor sz (all_inds rest) (fun e0 => term e0 rest)).
    + apply esum_ext; [done |]. intros e'' _ _.
      symmetry. apply (term_split e'' (occurs ind)).
    + apply reads_term.
    + intros x [Hx HK]%summed_inds_elem Hrest.
      apply n_owners_pos in Hx, Hrest. fold sel in Hx.
      apply HK, contracted_inds_elem. split; [by apply n_owners_pos |].
      left. pose proof (step_owners x). fold sel. lia.
  - apply step_sized_sel.
  - apply step_K_sub.
  - intros x Hx.
    destruct (decide (x ∈ summed_inds (contract_view ind v) outs)) as [HL | HL];
      [by apply Hin |].
    rewrite (Hout x HL). apply He.
    destruct (decide (x ∈ outs)) as [? | HxO]; [done |].
    exfalso. apply HL, summed_inds_elem. split; [| done].
    rewrite step_all_inds. apply elem_of_app. by right.
Qed.

End Step.

Lemma open_inds_present (outs : list string) (v : list Tensor) x :
  (forall x, x ∈ outs -> n_owners v x = 1) -> x ∈ outs -> x ∈ all_inds v.
Proof. intros HO Hx. apply n_owners_pos. rewrite (HO x Hx). lia. Qed.

(** One contraction step leaves the array of the full contraction as it
    is. *)
Lemma contract_view_full sz (outs : list string) ind v :
  sized sz v -> (forall x, x ∈ outs -> n_owners v x = 1) ->
  data (tensor_contract (contract_view ind v) outs) = data (tensor_contract v outs).
Proof.
  intros Hs HO.
  rewrite (tensor_contract_data sz (contract_view ind v)).
  - rewrite (tensor_contract_data sz v).
    + f_equal. apply fill_ext; [done |]. intros e' Hin _.
      by apply contract_view_value.
    + done.
    + intros x Hx. by eapply open_inds_present.
  - by apply contract_view_sized.
  - intros x Hx. eapply open_inds_present; [| done].
    intros y Hy. by apply (contract_view_open outs).
Qed.

Lemma contract_steps_full sz (outs : list string) order : forall v,
  sized sz v -> (forall x, x ∈ outs -> n_owners v x = 1) ->
  data (tensor_contract (contract_steps order v) outs) = data (tensor_contract v outs).
Proof.
  induction order as [|ind order IH]; intros v Hs HO; [done |].
  cbn [contract_steps].
  destruct (2 <=? n_owners v ind); [| by apply IH].
  rewrite IH.
  - by apply (contract_view_full sz).
  - by apply contract_view_sized.
  - intros x Hx. by apply (contract_view_open outs).
Qed.

Lemma outer_inds_open (v : list Tensor) x : x ∈ outer_inds v -> n_owners v x = 1.
Proof.
  unfold outer_inds. intros [H _]%list_elem_of_filter.
  by apply Is_true_true, Nat.eqb_eq in H.
Qed.

(** ** Full contraction: the loop over the labels *)

Lemma contract_shared_eq tn ind h :
  TensorNetwork.contract_shared tn ind h =
    if 2 <=? n_owners (view h tn) ind then TensorNetwork.contract_ind tn ind h
    else (Ok tt, h).
Proof.
  unfold TensorNetwork.contract_shared, bind, inspect. rewrite owners_length.
  fold (n_owners (view h tn) ind). by destruct (2 <=? n_owners (view h tn) ind).
Qed.

Lemma contract_in_order_loop c order : forall h,
  wf_net h c ->
  let r := for_each order (TensorNetwork.contract_shared c) h in
  fst r = Ok tt /\
  view (snd r) c = contract_steps order (view h c) /\
  wf_net (snd r) c.
Proof.
  induction order as [|ind order IH]; intros h Hwf r; [done |].
  subst r. cbn [for_each contract_steps]. unfold bind.
  rewrite contract_shared_eq.
  destruct (2 <=? n_owners (view h c) ind) eqn:E.
  - assert (Hp : present h c ind = true).
    { apply filter_nonempty_exists. apply Nat.leb_le in E. unfold n_owners in E. lia. }
    destruct (contract_ind_ok c ind h Hwf Hp) as (Hok & Hv & Hwf').
    destruct (TensorNetwork.contract_ind c ind h) as [r h1].
    simpl in Hok, Hv, Hwf'. subst r. rewrite <- Hv. by apply IH.
  - by apply IH.
Qed.

Lemma contract_in_order_eq tn order h :
  wf_net h tn ->
  fst (TensorNetwork.contract_in_order tn order h) =
  Ok (contract_values order (view h tn)).
Proof.
  intros Hwf. unfold TensorNetwork.contract_in_order.
  unfold bind at 1, inspect at 1. unfold bind at 1. rewrite copy_run.
  destruct (contract_in_order_loop (clone_ref h) order (clone_store h tn)
              (clone_wf h tn)) as (Hok & Hv & _).
  rewrite (clone_view h tn Hwf) in Hv.
  unfold bind.
  destruct (for_each order _ (clone_store h tn)) as [r h1].
  simpl in Hok, Hv. subst r. unfold inspect. cbn [fst].
  fold (view h1 (clone_ref h)). by rewrite Hv.
Qed.

(** C7, for arrays of exact numbers.  Order-independence of the full
    contraction: for a network whose arrays hold exact integers, whose
    tensors have distinct legs and agree on the size of every shared leg,
    contracting label by label gives the same array, on the same legs,
    whatever the order of the labels, and that array is the one [contract()]
    returns for the network evaluated as one expression.  Sums and products
    of exact numbers are associative and commutative; those of [float64]
    numbers are not. *)
Theorem contract_is_order_independent self order1 order2 h :
  wf_net h (TensorNetworkCode.network self) ->
  well_shaped (view h (TensorNetworkCode.network self)) ->
  exists t1 t2 t,
    fst (TensorNetworkCode.contract_in_order self order1 h) = Ok t1 /\
    fst (TensorNetworkCode.contract_in_order self order2 h) = Ok t2 /\
    fst (TensorNetworkCode.contract self h) = Ok t /\
    data t1 = data t2 /\ inds t1 = inds t2 /\
    data t1 = data t /\ inds t1 = inds t.
Proof.
  intros Hwf [_ Hs]. set (v := view h (TensorNetworkCode.network self)) in *.
  exists (contract_values order1 v), (contract_values order2 v),
         (tensor_contract v (outer_inds v)).
  unfold TensorNetworkCode.contract_in_order.
  rewrite !contract_in_order_eq by done. fold v.
  assert (Hfull : forall order,
            data (contract_values order v) =
            data (tensor_contract v (outer_inds v))).
  { intros order. apply (contract_steps_full (ind_size v)); [done |].
    apply outer_inds_open. }
  repeat split; [by rewrite !Hfull | apply Hfull].
Qed.

Lemma contraction_is_non_destructive_witness :
  let k := ContractIndices ["b"; "z"]%string in
  wf_net (snd ex_chain) 0 /\
  fst (run_call (ex_code [0; 1]) k (snd ex_chain))
    = Raise (ValueError "Index 'z' not found in the tensor network.") /\
  view (snd (run_call (ex_code [0; 1]) k (snd ex_chain))) 0 = [ex_T1; ex_T2].
Proof.
  assert (Hwf : wf_net (snd ex_chain) (TensorNetworkCode.network (ex_code [0; 1])))
    by solve_wf.
  intros k. split; [exact Hwf |]. split; [reflexivity |].
  destruct (contraction_is_non_destructive (ex_code [0; 1]) k (snd ex_chain) Hwf)
    as (_ & _ & Hv & _).
  exact Hv.
Defined.

Lemma missing_label_raises_value_error_witness :
  wf_net (snd ex_chain) 0 /\
  fst (TensorNetworkCode.contract_indices (ex_code [0; 1]) ["z"%string] (snd ex_chain))
    = Raise (ValueError "Index 'z' not found in the tensor network.") /\
  fst (TensorNetworkCode.contract_indices (ex_code [0; 1]) ["b"; "z"]%string
         (snd ex_chain))
    = Raise (ValueError "Index 'z' not found in the tensor network.") /\
  fst (TensorNetworkCode.contract_two_indices (ex_code [0; 1]) "y" "z" (snd ex_chain))
    = Raise (ValueError "Index 'y' not found in the tensor network.") /\
  fst (TensorNetworkCode.contract_two_indices (ex_code [0; 1]) "a" "z" (snd ex_chain))
    = Raise (ValueError "Index 'z' not found in the tensor network.") /\
  fst (TensorNetworkCode.fuse_and_contract_indices (ex_code [0; 1]) "y" "z"
         (snd ex_chain))
    = Raise (ValueError "Index 'y' not found in the tensor network after fusing.").
Proof.
  assert (Hwf : wf_net (snd ex_chain) (TensorNetworkCode.network (ex_code [0; 1])))
    by solve_wf.
  split; [exact Hwf |].
  destruct (missing_label_raises_value_error (ex_code [0; 1]) (snd ex_chain) Hwf)
    as (Hk & Hz & _).
  split; [| split; [| split; [| split]]].
  - apply (Hz "z"%string). reflexivity.
  - apply (Hk (ContractIndices ["b"; "z"]%string) "z"%string).
    exists ["b"%string], [], (snd (contract_step 1 "b" (clone_store (snd ex_chain) 0))).
    split; [reflexivity |]. split; reflexivity.
  - apply (Hk (ContractTwoIndices "y" "z") "y"%string).
    left. split; reflexivity.
  - apply (Hk (ContractTwoIndices "a" "z") "z"%string).
    right. split; [reflexivity |]. split; reflexivity.
  - apply (Hk (FuseAndContractIndices "y" "z") "y"%string).
    split; reflexivity.
Defined.

(** C2, as stated, fails: on a network where no tensor has leg [z], the
    failure of [contract_indices([z])] is a [ValueError], not an exception
    of the [LookupError] family. *)
Lemma missing_label_error_is_not_a_LookupError :
  present (snd ex_chain) 0 "z" = false /\
  ~ (exists e,
       fst (TensorNetworkCode.contract_indices (ex_code [0; 1]) ["z"%string]
              (snd ex_chain)) = Raise e /\
       is_LookupError e = true).
Proof.
  split; [reflexivity |]. intros (e & Hraise & Hkind).
  vm_compute in Hraise. injection Hraise as <-. discriminate Hkind.
Qed.

Lemma contract_shared_leg_is_matrix_product_witness :
  wf_net (snd ex_chain) 0 /\
  view (snd ex_chain) 0 = [ex_T1; ex_T2] /\
  view (snd (TensorNetworkCode.contract_indices (ex_code [0; 1]) ["b"%string]
               (snd ex_chain))) 1
    = [mk_Tensor (mk_ndarray [2; 2] [19; 22; 43; 50]%Z) ["a"; "c"]%string
                 ["T1"; "T2"]%string].
Proof.
  assert (Hwf : wf_net (snd ex_chain) (TensorNetworkCode.network (ex_code [0; 1])))
    by solve_wf.
  split; [exact Hwf |]. split; [reflexivity |].
  destruct (contract_shared_leg_is_matrix_product (ex_code [0; 1]) (snd ex_chain)
              1 2 3 4 5 6 7 8 ["T1"%string] ["T2"%string] Hwf eq_refl)
    as (_ & Hv & _).
  exact Hv.
Defined.

Lemma fuse_is_rename_then_contract_witness :
  wf_net (snd ex_apart) 0 /\
  same_result
    (TensorNetworkCode.fuse_and_contract_indices (ex_code [0; 3]) "a" "d"
       (snd ex_apart))
    (rename_then_contract (ex_code [0; 3]) "a" "d" (snd ex_apart)).
Proof.
  assert (Hwf : wf_net (snd ex_apart) (TensorNetworkCode.network (ex_code [0; 3])))
    by solve_wf.
  split; [exact Hwf |].
  destruct (fuse_is_rename_then_contract (ex_code [0; 3]) "a" "d" (snd ex_apart) Hwf)
    as [Hsame _].
  exact Hsame.
Defined.

Lemma contract_two_indices_checks_then_contracts_witness :
  let hc := clone_store (snd ex_double) 0 in
  (present hc 1 "y" = false /\
   TensorNetworkCode.contract_two_indices (ex_code [0; 2]) "y" "z" (snd ex_double)
     = (Raise (ValueError "Index 'y' not found in the tensor network."), hc)) /\
  (present hc 1 "a" = true /\ present hc 1 "z" = false /\
   TensorNetworkCode.contract_two_indices (ex_code [0; 2]) "a" "z" (snd ex_double)
     = (Raise (ValueError "Index 'z' not found in the tensor network."), hc)) /\
  (present hc 1 "a" = true /\ present hc 1 "b" = true /\
   TensorNetworkCode.contract_two_indices (ex_code [0; 2]) "a" "b" (snd ex_double)
     = (Raise (KeyError "b"), snd (TensorNetwork.contract_ind 1 "a" hc))).
Proof.
  intros hc. split; [| split].
  - split; [reflexivity |].
    destruct (contract_two_indices_checks_then_contracts (ex_code [0; 2]) "y" "z"
                (snd ex_double)) as (Hfirst & _).
    exact (Hfirst eq_refl).
  - split; [reflexivity |]. split; [reflexivity |].
    destruct (contract_two_indices_checks_then_contracts (ex_code [0; 2]) "a" "z"
                (snd ex_double)) as (_ & Hsecond & _).
    exact (Hsecond eq_refl eq_refl).
  - split; [reflexivity |]. split; [reflexivity |].
    destruct (contract_two_indices_checks_then_contracts (ex_code [0; 2]) "a" "b"
                (snd ex_double)) as (_ & _ & Hboth & _).
    destruct (Hboth eq_refl eq_refl) as (_ & _ & Hgone).
    apply Hgone. reflexivity.
Defined.

Lemma contract_indices_interleaves_witness :
  let hc := clone_store (snd ex_double) 0 in
  let h1 := snd (TensorNetwork.contract_ind 1 "a" hc) in
  for_each ["a"%string] (contract_step 1) hc = (Ok tt, h1) /\
  present h1 1 "b" = false /\
  TensorNetworkCode.contract_indices (ex_code [0; 2]) ["a"; "b"]%string
      (snd ex_double)
    = (Raise (ValueError "Index 'b' not found in the tensor network."), h1).
Proof.
  intros hc h1.
  assert (Hpre : for_each ["a"%string] (contract_step 1) hc = (Ok tt, h1))
    by reflexivity.
  split; [exact Hpre |]. split; [reflexivity |].
  destruct (contract_indices_interleaves (ex_code [0; 2]) ["a"%string] "b" []
              (snd ex_double) h1 Hpre) as (_ & Hfail & _).
  apply Hfail. reflexivity.
Defined.

Lemma add_tensor_mutates_owned_network_witness :
  wf_net (snd ex_chain) 0 /\
  let h' := snd (TensorNetworkCode.add_tensor (ex_code [0; 1]) 2 (snd ex_chain)) in
  view h' 0 = [ex_T1; ex_T2; ex_T3] /\
  assoc (TensorNetwork.ind_map h' 0) "a" = Some [4; 6] /\
  assoc (TensorNetwork.ind_map h' 0) "b" = Some [4; 5; 6] /\
  assoc (TensorNetwork.ind_map h' 0) "c" = Some [5].
Proof.
  assert (Hwf : wf_net (snd ex_chain) (TensorNetworkCode.network (ex_code [0; 1])))
    by solve_wf.
  split; [exact Hwf |].
  destruct (add_tensor_mutates_owned_network (ex_code [0; 1]) 2 (snd ex_chain) Hwf)
    as (_ & _ & _ & Hv & Hmap & _).
  split; [exact Hv |].
  split; [exact (Hmap "a"%string) |].
  split; [exact (Hmap "b"%string) | exact (Hmap "c"%string)].
Defined.

Lemma contract_two_indices_same_label_fails_witness :
  wf_net (snd ex_double) 0 /\
  2 <= length (TensorNetwork.owners (snd ex_double) 0 "a") /\
  fst (TensorNetworkCode.contract_two_indices (ex_code [0; 2]) "a" "a"
         (snd ex_double)) = Raise (KeyError "a").
Proof.
  assert (Hwf : wf_net (snd ex_double) (TensorNetworkCode.network (ex_code [0; 2])))
    by solve_wf.
  assert (Hshared : 2 <= length (TensorNetwork.owners (snd ex_double)
                       (TensorNetworkCode.network (ex_code [0; 2])) "a"))
    by (vm_compute; lia).
  split; [exact Hwf |]. split; [exact Hshared |].
  destruct (contract_two_indices_same_label_fails (ex_code [0; 2]) "a"
              (snd ex_double) Hwf Hshared) as (_ & _ & _ & Hrun).
  rewrite Hrun. reflexivity.
Defined.

Lemma fuse_with_absent_second_label_witness :
  wf_net (snd ex_chain) 0 /\
  present (snd ex_chain) 0 "b" = true /\
  present (snd ex_chain) 0 "z" = false /\
  TensorNetworkCode.fuse_and_contract_indices (ex_code [0; 1]) "b" "z" (snd ex_chain)
    = TensorNetworkCode.contract_indices (ex_code [0; 1]) ["b"%string] (snd ex_chain).
Proof.
  assert (Hwf : wf_net (snd ex_chain) (TensorNetworkCode.network (ex_code [0; 1])))
    by solve_wf.
  split; [exact Hwf |]. split; [reflexivity |]. split; [reflexivity |].
  destruct (fuse_with_absent_second_label (ex_code [0; 1]) "b" "z" (snd ex_chain)
              Hwf eq_refl eq_refl) as (_ & Heq & _).
  exact Heq.
Defined.

Lemma contract_is_order_independent_witness :
  wf_net (snd ex_star) 0 /\
  well_shaped (view (snd ex_star) 0) /\
  (exists tags1,
     fst (TensorNetworkCode.contract_in_order (ex_code [0; 1; 2])
            ["a"; "b"]%string (snd ex_star))
     = Ok (mk_Tensor (mk_ndarray [2] [158; 228]%Z) ["x"]%string tags1)) /\
  (exists tags2,
     fst (TensorNetworkCode.contract_in_order (ex_code [0; 1; 2])
            ["b"; "a"]%string (snd ex_star))
     = Ok (mk_Tensor (mk_ndarray [2] [158; 228]%Z) ["x"]%string tags2)) /\
  exists t1 t2 t,
    fst (TensorNetworkCode.contract_in_order (ex_code [0; 1; 2])
           ["a"; "b"]%string (snd ex_star)) = Ok t1 /\
    fst (TensorNetworkCode.contract_in_order (ex_code [0; 1; 2])
           ["b"; "a"]%string (snd ex_star)) = Ok t2 /\
    fst (TensorNetworkCode.contract (ex_code [0; 1; 2]) (snd ex_star)) = Ok t /\
    data t1 = data t2 /\ inds t1 = inds t2 /\
    data t1 = data t /\ inds t1 = inds t.
Proof.
  assert (Hwf : wf_net (snd ex_star)
                  (TensorNetworkCode.network (ex_code [0; 1; 2]))) by solve_wf.
  assert (Hws : well_shaped (view (snd ex_star)
                  (TensorNetworkCode.network (ex_code [0; 1; 2])))).
  { unfold well_shaped, sized. apply (bool_decide_unpack _). vm_compute. exact I. }
  split; [exact Hwf |]. split; [exact Hws |].
  split; [eexists; reflexivity |]. split; [eexists; reflexivity |].
  exact (contract_is_order_independent (ex_code [0; 1; 2])
           ["a"; "b"]%string ["b"; "a"]%string (snd ex_star) Hwf Hws).
Defined.

(** C7, as stated, fails on [float64] arrays, where products are rounded:
    for the three one-entry tensors 0.1 on (a), 0.2 on (a,b) and 0.3 on (b),
    contracting [a] and then [b] gives (0.1 * 0.2) * 0.3 =
    0.006000000000000001, and contracting [b] and then [a] gives
    0.1 * (0.2 * 0.3) = 0.006. *)
Lemma contract_order_changes_float64_result :
  let r_ab := float64.contract_in_order ["a"; "b"]%string float64.ex_line in
  let r_ba := float64.contract_in_order ["b"; "a"]%string float64.ex_line in
  (inds r_ab = [] /\ buf (data r_ab) = [float64.c0_006_up]) /\
  (inds r_ba = [] /\ buf (data r_ba) = [float64.c0_006]) /\
  PrimFloat.eqb float64.c0_006_up float64.c0_006 = false /\
  data r_ab <> data r_ba.
Proof.
  intros r_ab r_ba.
  assert (Hab : buf (data r_ab) = [float64.c0_006_up]) by (vm_compute; reflexivity).
  assert (Hba : buf (data r_ba) = [float64.c0_006]) by (vm_compute; reflexivity).
  assert (Hne : PrimFloat.eqb float64.c0_006_up float64.c0_006 = false)
    by (vm_compute; reflexivity).
  split; [split; [reflexivity | exact Hab] |].
  split; [split; [reflexivity | exact Hba] |].
  split; [exact Hne |].
  intros Heq. rewrite Heq, Hba in Hab.
  apply (f_equal (fun l => PrimFloat.eqb float64.c0_006_up
                             (hd float64.c0_006_up l))) in Hab.
  vm_compute in Hab. discriminate Hab.
Qed.

(** * Further properties of the facade *)

(** ** The methods as functions on tensor values *)

Lemma for_each_contract_step_views tn indices : forall h,
  wf_net h tn ->
  let r := for_each indices (contract_step tn) h in
  wf_net (snd r) tn /\
  match contract_views indices (view h tn) with
  | Ok v => fst r = Ok tt /\ view (snd r) tn = v
  | Raise e => fst r = Raise e
  end.
Proof.
  induction indices as [|x indices IH]; intros h Hwf; simpl.
  - by split.
  - unfold bind. rewrite contract_step_eq. unfold present.
    destruct (existsb (occurs x) (view h tn)) eqn:Hx.
    + destruct (contract_ind_ok tn x h Hwf Hx) as (Hok & Hv & Hwf').
      destruct (TensorNetwork.contract_ind tn x h) as [r h1].
      simpl in *. subst r. rewrite <- Hv. by apply IH.
    + by split.
Qed.

Lemma contract_indices_outcome self indices h :
  wf_net h (TensorNetworkCode.network self) ->
  let r := TensorNetworkCode.contract_indices self indices h in
  outcome r = contract_views indices (view h (TensorNetworkCode.network self)) /\
  wf_net (snd r) (clone_ref h) /\
  (forall tn, fst r = Ok tn -> tn = clone_ref h).
Proof.
  intros Hwf r. subst r. set (n := TensorNetworkCode.network self) in *.
  rewrite contract_indices_eq. fold n.
  destruct (for_each_contract_step_views (clone_ref h) indices (clone_store h n)
              (clone_wf h n)) as [Hwf' Hrun].
  rewrite clone_view in Hrun by done.
  destruct (for_each indices (contract_step (clone_ref h)) (clone_store h n))
    as [[[] | e] h1]; simpl in *.
  - destruct (contract_views indices (view h n)) as [v | e'].
    + destruct Hrun as [_ Hv]. split; [by rewrite Hv |]. split; [done |].
      by intros tn [= <-].
    + done.
  - destruct (contract_views indices (view h n)) as [v | e'].
    + by destruct Hrun.
    + split; [congruence |]. split; [done |]. by intros tn [=].
Qed.

Lemma contract_two_indices_outcome self ind1 ind2 h :
  wf_net h (TensorNetworkCode.network self) ->
  let r := TensorNetworkCode.contract_two_indices self ind1 ind2 h in
  outcome r =
    call_views (ContractTwoIndices ind1 ind2)
               (view h (TensorNetworkCode.network self)) /\
  wf_net (snd r) (clone_ref h) /\
  (forall tn, fst r = Ok tn -> tn = clone_ref h).
Proof.
  intros Hwf r. subst r. set (n := TensorNetworkCode.network self) in *.
  rewrite contract_two_indices_eq. cbv zeta. fold n.
  set (tn := clone_ref h). set (hc := clone_store h n).
  assert (Hvc : view hc tn = view h n) by (by apply clone_view).
  pose proof (clone_wf h n) as Hwfc. fold tn hc in Hwfc.
  unfold call_views, present. rewrite Hvc.
  destruct (existsb (occurs ind1) (view h n)) eqn:H1; simpl;
    [| split; [done | split; [done | by intros ? [=]]]].
  destruct (existsb (occurs ind2) (view h n)) eqn:H2; simpl;
    [| split; [done | split; [done | by intros ? [=]]]].
  assert (Hp1 : present hc tn ind1 = true) by (unfold present; by rewrite Hvc).
  destruct (contract_ind_ok tn ind1 hc Hwfc Hp1) as (Hok1 & Hv1 & Hwf1).
  rewrite Hvc in Hv1. unfold bind.
  destruct (TensorNetwork.contract_ind tn ind1 hc) as [r1 h1].
  simpl in *. subst r1.
  destruct (existsb (occurs ind2) (contract_view ind1 (view h n))) eqn:H3.
  - assert (Hp2 : present h1 tn ind2 = true) by (unfold present; by rewrite Hv1).
    destruct (contract_ind_ok tn ind2 h1 Hwf1 Hp2) as (Hok2 & Hv2 & Hwf2).
    rewrite Hv1 in Hv2.
    destruct (TensorNetwork.contract_ind tn ind2 h1) as [r2 h2].
    simpl in *. subst r2. simpl.
    split; [by rewrite Hv2 |]. split; [done |]. by intros ? [= <-].
  - assert (Hp2 : present h1 tn ind2 = false) by (unfold present; by rewrite Hv1).
    rewrite (contract_ind_absent _ _ _ Hp2). simpl.
    split; [done |]. split; [done |]. by intros ? [=].
Qed.

Lemma fuse_and_contract_indices_outcome self ind1 ind2 h :
  wf_net h (TensorNetworkCode.network self) ->
  let r := TensorNetworkCode.fuse_and_contract_indices self ind1 ind2 h in
  outcome r =
    call_views (FuseAndContractIndices ind1 ind2)
               (view h (TensorNetworkCode.network self)) /\
  wf_net (snd r) (clone_ref h) /\
  (forall tn, fst r = Ok tn -> tn = clone_ref h).
Proof.
  intros Hwf r. subst r. set (n := TensorNetworkCode.network self) in *.
  destruct (fuse_rename_store self ind1 ind2 h Hwf) as [Hv Hwfr]. fold n in Hv, Hwfr.
  rewrite fuse_and_contract_indices_eq. cbv zeta. fold n.
  set (tn := clone_ref h) in *.
  set (hr := snd (for_each _ _ _)) in *.
  unfold call_views, present. rewrite Hv.
  destruct (existsb (occurs ind1) (map (renamed [(ind2, ind1)]) (view h n))) eqn:H1;
    simpl; [| split; [done | split; [done | by intros ? [=]]]].
  assert (Hp : present hr tn ind1 = true) by (unfold present; by rewrite Hv).
  destruct (contract_ind_ok tn ind1 hr Hwfr Hp) as (Hok & Hv1 & Hwf1).
  rewrite Hv in Hv1. unfold bind.
  destruct (TensorNetwork.contract_ind tn ind1 hr) as [r1 h1].
  simpl in *. subst r1. simpl.
  split; [by rewrite Hv1 |]. split; [done |]. by intros ? [= <-].
Qed.

(** X2. [contract_indices([])] runs no iteration: it never raises and
    returns a network that is not the owned one and holds the same tensors,
    in the same order. *)
Theorem contract_indices_of_nothing_is_a_copy self h :
  wf_net h (TensorNetworkCode.network self) ->
  let n := TensorNetworkCode.network self in
  let r := TensorNetworkCode.contract_indices self [] h in
  fst r = Ok (clone_ref h) /\
  clone_ref h <> n /\
  view (snd r) (clone_ref h) = view h n /\
  Forall (fun l => l ∉ net_locs h n) (net_locs (snd r) (clone_ref h)).
Proof.
  intros Hwf n r. subst r. rewrite contract_indices_eq. simpl. fold n.
  destruct Hwf as (Hn & Hnd & Hall). fold n in Hn, Hnd, Hall.
  split; [done |]. split; [unfold clone_ref; lia |].
  split; [by apply clone_view |].
  rewrite clone_locs. apply Forall_forall. intros l Hl Hl'.
  apply elem_of_seq in Hl. rewrite Forall_forall in Hall.
  specialize (Hall _ Hl'). simpl in Hall. lia.
Qed.

Lemma contract_indices_of_nothing_is_a_copy_witness :
  wf_net (snd ex_chain) 0 /\
  fst (TensorNetworkCode.contract_indices (ex_code [0; 1]) [] (snd ex_chain)) = Ok 1 /\
  view (snd (TensorNetworkCode.contract_indices (ex_code [0; 1]) [] (snd ex_chain))) 1
    = [ex_T1; ex_T2].
Proof.
  assert (Hwf : wf_net (snd ex_chain) (TensorNetworkCode.network (ex_code [0; 1])))
    by solve_wf.
  split; [exact Hwf |].
  destruct (contract_indices_of_nothing_is_a_copy (ex_code [0; 1]) (snd ex_chain) Hwf)
    as (Hok & _ & Hv & _).
  split; [exact Hok | exact Hv].
Defined.

(** ** Calls after calls *)

Lemma run_call_keeps_owned self k h :
  wf_net h (TensorNetworkCode.network self) ->
  let h' := snd (run_call self k h) in
  view h' (TensorNetworkCode.network self) = view h (TensorNetworkCode.network self) /\
  wf_net h' (TensorNetworkCode.network self).
Proof.
  intros Hwf h'.
  assert (Hext : extends h h') by apply same_below_extends, run_call_frame.
  destruct (extends_observe h h' _ Hext Hwf) as (_ & Hv & _).
  split; [done | by eapply extends_wf].
Qed.

Lemma run_call_outcome self k h :
  wf_net h (TensorNetworkCode.network self) ->
  outcome (run_call self k h) =
    call_views k (view h (TensorNetworkCode.network self)).
Proof.
  intros Hwf. destruct k as [indices | ind1 ind2 | ind1 ind2]; simpl.
  - by apply contract_indices_outcome.
  - by apply fuse_and_contract_indices_outcome.
  - by apply contract_two_indices_outcome.
Qed.

Lemma run_call_returns_clone self k h :
  wf_net h (TensorNetworkCode.network self) ->
  forall tn, fst (run_call self k h) = Ok tn -> tn = clone_ref h.
Proof.
  intros Hwf. destruct k as [indices | ind1 ind2 | ind1 ind2]; simpl.
  - by apply contract_indices_outcome.
  - by apply fuse_and_contract_indices_outcome.
  - by apply contract_two_indices_outcome.
Qed.

(** X3. The contraction methods can be called again and again: after any
    of them has run on a code object, returning or raising, every one of
    them gives the caller what it would have given before that call. *)
Theorem contraction_calls_are_repeatable self k k' h :
  wf_net h (TensorNetworkCode.network self) ->
  outcome (run_call self k (snd (run_call self k' h))) =
  outcome (run_call self k h).
Proof.
  intros Hwf.
  destruct (run_call_keeps_owned self k' h Hwf) as [Hv Hwf'].
  rewrite (run_call_outcome self k _ Hwf'), (run_call_outcome self k h Hwf).
  by rewrite Hv.
Qed.

Lemma contraction_calls_are_repeatable_witness :
  wf_net (snd ex_chain) 0 /\
  outcome (run_call (ex_code [0; 1]) (ContractIndices ["b"%string])
             (snd (run_call (ex_code [0; 1]) (ContractTwoIndices "b" "b")
                     (snd ex_chain))))
    = Ok [mk_Tensor (mk_ndarray [2; 2] [19; 22; 43; 50]%Z) ["a"; "c"]%string
                    ["T1"; "T2"]%string].
Proof.
  assert (Hwf : wf_net (snd ex_chain) (TensorNetworkCode.network (ex_code [0; 1])))
    by solve_wf.
  split; [exact Hwf |].
  rewrite (contraction_calls_are_repeatable (ex_code [0; 1])
             (ContractIndices ["b"%string]) (ContractTwoIndices "b" "b")
             (snd ex_chain) Hwf).
  reflexivity.
Defined.

(** X4. [contract()] works on the owned network, which the contraction
    methods leave alone: after any of them, returning or raising,
    [contract()] returns the tensor it returned before. *)
Theorem contract_ignores_earlier_contractions self k h :
  wf_net h (TensorNetworkCode.network self) ->
  let h' := snd (run_call self k h) in
  fst (TensorNetworkCode.contract self h') = fst (TensorNetworkCode.contract self h).
Proof.
  intros Hwf h'. destruct (run_call_keeps_owned self k h Hwf) as [Hv _].
  fold h' in Hv.
  unfold TensorNetworkCode.contract, TensorNetwork.contract, inspect. simpl.
  fold (view h' (TensorNetworkCode.network self)).
  fold (view h (TensorNetworkCode.network self)). by rewrite Hv.
Qed.

Lemma contract_ignores_earlier_contractions_witness :
  wf_net (snd ex_apart) 0 /\
  fst (TensorNetworkCode.contract (ex_code [0; 3])
         (snd (run_call (ex_code [0; 3]) (FuseAndContractIndices "a" "d")
                 (snd ex_apart))))
    = Ok (mk_Tensor
            (mk_ndarray [2; 2; 2; 2]
               [5; 6; 7; 8; 10; 12; 14; 16; 15; 18; 21; 24; 20; 24; 28; 32]%Z)
            ["a"; "b"; "d"; "c"]%string ["T1"; "T4"]%string).
Proof.
  assert (Hwf : wf_net (snd ex_apart) (TensorNetworkCode.network (ex_code [0; 3])))
    by solve_wf.
  split; [exact Hwf |].
  rewrite (contract_ignores_earlier_contractions (ex_code [0; 3])
             (FuseAndContractIndices "a" "d") (snd ex_apart) Hwf).
  reflexivity.
Defined.

(** ** How the methods relate *)

(** X5. [contract_two_indices(a, b)] and [contract_indices([a, b])] return
    a network in the same cases, and then the two networks hold the same
    tensors; otherwise both raise.  (Only the exceptions differ: the first
    method checks [b] before contracting [a] and not after.) *)
Theorem contract_two_indices_agrees_with_contract_indices self a b h :
  wf_net h (TensorNetworkCode.network self) ->
  alike (outcome (TensorNetworkCode.contract_two_indices self a b h))
        (outcome (TensorNetworkCode.contract_indices self [a; b] h)).
Proof.
  intros Hwf.
  destruct (contract_two_indices_outcome self a b h Hwf) as [-> _].
  destruct (contract_indices_outcome self [a; b] h Hwf) as [-> _].
  set (v := view h (TensorNetworkCode.network self)). simpl.
  destruct (existsb (occurs a) v) eqn:Ha; simpl; [| done].
  destruct (existsb (occurs b) (contract_view a v)) eqn:Hb'.
  - apply contract_view_present in Hb'. by rewrite Hb'.
  - by destruct (existsb (occurs b) v).
Qed.

Lemma contract_two_indices_agrees_with_contract_indices_witness :
  wf_net (snd ex_chain) 0 /\
  alike (outcome (TensorNetworkCode.contract_two_indices (ex_code [0; 1]) "b" "a"
                    (snd ex_chain)))
        (outcome (TensorNetworkCode.contract_indices (ex_code [0; 1])
                    ["b"; "a"]%string (snd ex_chain))).
Proof.
  assert (Hwf : wf_net (snd ex_chain) (TensorNetworkCode.network (ex_code [0; 1])))
    by solve_wf.
  split; [exact Hwf |].
  exact (contract_two_indices_agrees_with_contract_indices (ex_code [0; 1])
           "b" "a" (snd ex_chain) Hwf).
Defined.

(** ** When fusion fails, and what it removes *)

Lemma occurs_renamed_target a b t :
  occurs a (renamed [(b, a)] t) = occurs a t || occurs b t.
Proof.
  destruct t as [d ix tg]. unfold occurs, renamed. simpl.
  induction ix as [|i ix IH]; simpl; [done |].
  rewrite IH. destruct (String.eqb_spec i b) as [-> | Hib]; simpl.
  - rewrite !String.eqb_refl. simpl.
    destruct (a =? b)%string, (existsb (String.eqb a) ix),
      (existsb (String.eqb b) ix); done.
  - rewrite (proj2 (String.eqb_neq b i)) by congruence.
    destruct (a =? i)%string, (existsb (String.eqb a) ix),
      (existsb (String.eqb b) ix); done.
Qed.

Lemma occurs_renamed_source a b t :
  a <> b -> occurs b (renamed [(b, a)] t) = false.
Proof.
  intros Hab. destruct t as [d ix tg]. unfold occurs, renamed. simpl.
  induction ix as [|i ix IH]; simpl; [done |].
  rewrite IH, orb_false_r. destruct (String.eqb_spec i b) as [-> | Hib]; simpl.
  - apply String.eqb_neq. congruence.
  - apply String.eqb_neq. congruence.
Qed.

Lemma existsb_map {A B} (f : B -> bool) (g : A -> B) (l : list A) :
  existsb f (map g l) = existsb (fun x => f (g x)) l.
Proof. induction l as [|x l IH]; simpl; [done | by rewrite IH]. Qed.

Lemma existsb_orb {A} (f g : A -> bool) (l : list A) :
  existsb (fun x => f x || g x) l = existsb f l || existsb g l.
Proof.
  induction l as [|x l IH]; simpl; [done |]. rewrite IH.
  destruct (f x), (g x), (existsb f l), (existsb g l); done.
Qed.

(** X7. [fuse_and_contract_indices(ind1, ind2)] raises exactly when
    neither label is a leg of any tensor of the owned network, and then the
    error names [ind1]; as soon as one of the two labels is there, the call
    returns the clone. *)
Theorem fuse_raises_iff_both_labels_absent self ind1 ind2 h :
  wf_net h (TensorNetworkCode.network self) ->
  let n := TensorNetworkCode.network self in
  fst (TensorNetworkCode.fuse_and_contract_indices self ind1 ind2 h) =
    if present h n ind1 || present h n ind2 then Ok (clone_ref h)
    else Raise (ValueError (TensorNetworkCode.not_found_after_fusing ind1)).
Proof.
  intros Hwf n.
  destruct (fuse_and_contract_indices_outcome self ind1 ind2 h Hwf)
    as (Hout & _ & Htn).
  fold n in Hout. unfold call_views in Hout.
  assert (Hp : existsb (occurs ind1) (map (renamed [(ind2, ind1)]) (view h n)) =
               present h n ind1 || present h n ind2).
  { rewrite existsb_map. unfold present. rewrite <- existsb_orb.
    generalize (view h n). intros v.
    induction v as [|t v IH]; simpl; [done |].
    by rewrite IH, occurs_renamed_target. }
  rewrite Hp in Hout.
  destruct (TensorNetworkCode.fuse_and_contract_indices self ind1 ind2 h)
    as [[tn | e] h']; simpl in *.
  - rewrite (Htn tn eq_refl).
    by destruct (present h n ind1 || present h n ind2).
  - destruct (present h n ind1 || present h n ind2); [done | congruence].
Qed.

Lemma fuse_raises_iff_both_labels_absent_witness :
  wf_net (snd ex_chain) 0 /\
  fst (TensorNetworkCode.fuse_and_contract_indices (ex_code [0; 1]) "y" "z"
         (snd ex_chain))
    = Raise (ValueError "Index 'y' not found in the tensor network after fusing.") /\
  fst (TensorNetworkCode.fuse_and_contract_indices (ex_code [0; 1]) "y" "c"
         (snd ex_chain)) = Ok 1.
Proof.
  assert (Hwf : wf_net (snd ex_chain) (TensorNetworkCode.network (ex_code [0; 1])))
    by solve_wf.
  split; [exact Hwf |]. split.
  - rewrite (fuse_raises_iff_both_labels_absent (ex_code [0; 1]) "y" "z"
               (snd ex_chain) Hwf). reflexivity.
  - rewrite (fuse_raises_iff_both_labels_absent (ex_code [0; 1]) "y" "c"
               (snd ex_chain) Hwf). reflexivity.
Defined.

(** X8. After [fuse_and_contract_indices(ind1, ind2)] with two different
    labels, no tensor of the returned network has leg [ind2]. *)
Theorem fuse_removes_second_label self ind1 ind2 h tn :
  wf_net h (TensorNetworkCode.network self) ->
  ind1 <> ind2 ->
  fst (TensorNetworkCode.fuse_and_contract_indices self ind1 ind2 h) = Ok tn ->
  present (snd (TensorNetworkCode.fuse_and_contract_indices self ind1 ind2 h))
          tn ind2 = false.
Proof.
  intros Hwf Hne Hok.
  destruct (fuse_and_contract_indices_outcome self ind1 ind2 h Hwf)
    as (Hout & _ & _).
  destruct (TensorNetworkCode.fuse_and_contract_indices self ind1 ind2 h)
    as [r h']. simpl in *. subst r. simpl in Hout.
  set (v := map (renamed [(ind2, ind1)]) (view h (TensorNetworkCode.network self)))
    in *.
  destruct (existsb (occurs ind1) v); [| done].
  injection Hout as Hv. unfold present. rewrite Hv.
  destruct (existsb (occurs ind2) (contract_view ind1 v)) eqn:E; [| done].
  apply contract_view_present in E. unfold v in E. rewrite existsb_map in E.
  apply existsb_exists in E as (t & _ & Ht).
  by rewrite occurs_renamed_source in Ht.
Qed.

Lemma fuse_removes_second_label_witness :
  wf_net (snd ex_apart) 0 /\
  "a"%string <> "d"%string /\
  present (snd (TensorNetworkCode.fuse_and_contract_indices (ex_code [0; 3])
                  "a" "d" (snd ex_apart))) 1 "d" = false.
Proof.
  assert (Hwf : wf_net (snd ex_apart) (TensorNetworkCode.network (ex_code [0; 3])))
    by solve_wf.
  assert (Hne : "a"%string <> "d"%string) by discriminate.
  split; [exact Hwf |]. split; [exact Hne |].
  exact (fuse_removes_second_label (ex_code [0; 3]) "a" "d" (snd ex_apart) 1
           Hwf Hne eq_refl).
Defined.

(** ** What a contraction cannot do *)

Lemma filter_split_length {A} (f : A -> bool) (l : list A) :
  length (filter (fun x => f x) l) + length (filter (fun x => negb (f x)) l)
  = length l.
Proof.
  induction l as [|x l IH]; [done |].
  rewrite !filter_cons. destruct (f x); simpl; lia.
Qed.

Lemma contract_view_length ind (v : list Tensor) :
  existsb (occurs ind) v = true -> length (contract_view ind v) <= length v.
Proof.
  intros Hp. unfold contract_view. rewrite length_app. simpl.
  pose proof (filter_split_length (occurs ind) v) as Hlen.
  assert (1 <= length (filter (fun t => occurs ind t) v)); [| lia].
  apply existsb_exists in Hp as (t & Ht & Hocc).
  assert (Hin : t ∈ filter (fun t => occurs ind t) v).
  { apply list_elem_of_filter. split; [by rewrite Hocc | by apply list_elem_of_In]. }
  destruct (filter (fun t => occurs ind t) v); [by apply not_elem_of_nil in Hin |].
  simpl. lia.
Qed.

Lemma contract_views_bound indices : forall v v',
  contract_views indices v = Ok v' ->
  length v' <= length v /\
  forall l, existsb (occurs l) v' = true -> existsb (occurs l) v = true.
Proof.
  induction indices as [|x indices IH]; intros v v'; simpl.
  - intros [= <-]. by split.
  - destruct (existsb (occurs x) v) eqn:Hx; [| done].
    intros Hrun. destruct (IH _ _ Hrun) as [Hlen Hlab].
    pose proof (contract_view_length x v Hx). split; [lia |].
    intros l Hl. by eapply contract_view_present, Hlab.
Qed.

Lemma occurs_renamed_other a b l t :
  occurs l (renamed [(b, a)] t) = true -> l = a \/ occurs l t = true.
Proof.
  destruct t as [d ix tg]. unfold occurs, renamed. simpl.
  induction ix as [|i ix IH]; simpl; [done |].
  intros [Hi | Hix]%orb_true_iff.
  - destruct (String.eqb_spec i b) as [-> | Hib]; simpl in Hi.
    + left. by apply String.eqb_eq.
    + right. by rewrite Hi.
  - destruct (IH Hix) as [-> | Hl]; [by left |].
    right. rewrite Hl. apply orb_true_r.
Qed.

(** X9. A contraction method never returns more tensors than the owned
    network has, and never invents a label: every leg of the returned
    network is a leg of the owned network, or the label [ind1] that
    [fuse_and_contract_indices] renames to. *)
Theorem contraction_never_grows_the_network self k h tn :
  wf_net h (TensorNetworkCode.network self) ->
  fst (run_call self k h) = Ok tn ->
  let n := TensorNetworkCode.network self in
  let h' := snd (run_call self k h) in
  length (view h' tn) <= length (view h n) /\
  forall l, present h' tn l = true ->
    present h n l = true \/ exists ind2, k = FuseAndContractIndices l ind2.
Proof.
  intros Hwf Hok n h'. pose proof (run_call_outcome self k h Hwf) as Hout.
  fold n in Hout. subst h'.
  destruct (run_call self k h) as [r h']. simpl in *. subst r. simpl in Hout.
  unfold present. set (v := view h n) in *. set (v' := view h' tn) in *.
  symmetry in Hout.
  destruct k as [indices | ind1 ind2 | ind1 ind2]; simpl in Hout.
  - destruct (contract_views_bound _ _ _ Hout) as [Hlen Hlab].
    split; [done |]. intros l Hl. left. by apply Hlab.
  - destruct (existsb (occurs ind1) (map (renamed [(ind2, ind1)]) v)) eqn:Hp;
      [| done].
    injection Hout as <-. split.
    + pose proof (contract_view_length _ _ Hp) as Hlen.
      by rewrite length_map in Hlen.
    + intros l Hl. apply contract_view_present in Hl.
      rewrite existsb_map in Hl. apply existsb_exists in Hl as (t & Ht & Hocc).
      apply occurs_renamed_other in Hocc as [-> | Hocc]; [right; eauto |].
      left. apply existsb_exists. eauto.
  - destruct (existsb (occurs ind1) v) eqn:Hp1; simpl in Hout; [| done].
    destruct (existsb (occurs ind2) v) eqn:Hp2; simpl in Hout; [| done].
    destruct (existsb (occurs ind2) (contract_view ind1 v)) eqn:Hp3; [| done].
    injection Hout as <-.
    pose proof (contract_view_length _ _ Hp1).
    pose proof (contract_view_length _ _ Hp3).
    split; [lia |]. intros l Hl. left.
    by apply contract_view_present, contract_view_present in Hl.
Qed.

Lemma contraction_never_grows_the_network_witness :
  let r := run_call (ex_code [0; 1]) (ContractIndices ["b"%string]) (snd ex_chain) in
  wf_net (snd ex_chain) 0 /\
  fst r = Ok 1 /\
  length (view (snd r) 1) <= length (view (snd ex_chain) 0).
Proof.
  intros r.
  assert (Hwf : wf_net (snd ex_chain) (TensorNetworkCode.network (ex_code [0; 1])))
    by solve_wf.
  assert (Hok : fst r = Ok 1) by reflexivity.
  split; [exact Hwf |]. split; [exact Hok |].
  destruct (contraction_never_grows_the_network (ex_code [0; 1])
              (ContractIndices ["b"%string]) (snd ex_chain) 1 Hwf Hok) as [Hlen _].
  exact Hlen.
Defined.

(** X10. In [contract_indices], a label carried by two or more tensors and
    given again later in the list makes the call fail: its first
    contraction removes it, nothing brings it back, and a later check
    raises the error for a missing label. *)
Theorem contract_indices_label_given_twice self x rest h :
  wf_net h (TensorNetworkCode.network self) ->
  2 <= length (TensorNetwork.owners h (TensorNetworkCode.network self) x) ->
  x ∈ rest ->
  exists ind',
    ind' ∈ rest /\
    fst (TensorNetworkCode.contract_indices self (x :: rest) h) =
      Raise (ValueError (TensorNetworkCode.not_found ind')).
Proof.
  intros Hwf Hshared Hin. set (n := TensorNetworkCode.network self) in *.
  rewrite owners_length in Hshared.
  rewrite contract_indices_eq. fold n. simpl. unfold bind.
  set (tn := clone_ref h). set (hc := clone_store h n).
  assert (Hvc : view hc tn = view h n) by (by apply clone_view).
  assert (Hp : present hc tn x = true).
  { unfold present. rewrite Hvc. apply filter_nonempty_exists. lia. }
  rewrite contract_step_eq, Hp.
  destruct (contract_ind_ok tn x hc (clone_wf h n) Hp) as (Hok & Hv & Hwf1).
  destruct (TensorNetwork.contract_ind tn x hc) as [r h1]. simpl in *. subst r.
  assert (Hgone : present h1 tn x = false).
  { unfold present. rewrite Hv, Hvc. by apply contract_view_removes. }
  destruct (for_each_contract_step_fails tn x rest h1 Hwf1 Hin Hgone)
    as (ind' & h2 & Hin' & Hrun).
  exists ind'. split; [done |]. by rewrite Hrun.
Qed.

Lemma contract_indices_label_given_twice_witness :
  wf_net (snd ex_chain) 0 /\
  2 <= length (TensorNetwork.owners (snd ex_chain) 0 "b") /\
  "b"%string ∈ ["b"%string] /\
  exists ind',
    ind' ∈ ["b"%string] /\
    fst (TensorNetworkCode.contract_indices (ex_code [0; 1]) ["b"; "b"]%string
           (snd ex_chain))
      = Raise (ValueError (TensorNetworkCode.not_found ind')).
Proof.
  assert (Hwf : wf_net (snd ex_chain) (TensorNetworkCode.network (ex_code [0; 1])))
    by solve_wf.
  assert (Hshared : 2 <= length (TensorNetwork.owners (snd ex_chain)
                       (TensorNetworkCode.network (ex_code [0; 1])) "b"))
    by (vm_compute; lia).
  assert (Hin : "b"%string ∈ ["b"%string]) by (by left).
  split; [exact Hwf |]. split; [exact Hshared |]. split; [exact Hin |].
  exact (contract_indices_label_given_twice (ex_code [0; 1]) "b" ["b"%string]
           (snd ex_chain) Hwf Hshared Hin).
Defined.

(** ** The returned network and the owned one *)

Lemma contract_ind_owned bt tn ind h :
  bt <= length (tens h) ->
  Forall (fun l => bt <= l) (net_locs h tn) ->
  Forall (fun l => bt <= l) (net_locs (snd (TensorNetwork.contract_ind tn ind h)) tn).
Proof.
  intros Hbt Hown. rewrite contract_ind_eq.
  destruct (present h tn ind); [| done]. simpl.
  unfold net_locs at 1. simpl.
  destruct (decide (tn < length (nets h))) as [Hlt | Hge].
  - rewrite list_lookup_total_insert_eq by done. apply Forall_app. split.
    + apply Forall_forall. intros l Hl. apply list_elem_of_filter in Hl as [_ Hl].
      rewrite Forall_forall in Hown. by apply Hown.
    + by apply Forall_singleton.
  - rewrite list_insert_ge by lia. exact Hown.
Qed.

Lemma for_each_contract_step_owned bt tn indices : forall h,
  bt <= length (tens h) ->
  Forall (fun l => bt <= l) (net_locs h tn) ->
  Forall (fun l => bt <= l)
         (net_locs (snd (for_each indices (contract_step tn) h)) tn).
Proof.
  induction indices as [|x indices IH]; intros h Hbt Hown; simpl; [done |].
  unfold bind. rewrite contract_step_eq.
  destruct (present h tn x); [| done].
  pose proof (contract_ind_owned bt tn x h Hbt Hown) as Hown'.
  destruct (contract_ind_frame bt 0 tn x h Hbt (Nat.le_0_l _)) as [_ Hlen].
  destruct (TensorNetwork.contract_ind tn x h) as [[[] | e] h1]; simpl in *.
  - apply IH; [lia | done].
  - done.
Qed.

(** X11. The network a contraction method returns is made of objects that
    did not exist before the call: it is not the owned network, and none of
    its tensors is a tensor of the owned network or of the caller. *)
Theorem returned_network_is_made_of_new_objects self k h tn :
  wf_net h (TensorNetworkCode.network self) ->
  fst (run_call self k h) = Ok tn ->
  let n := TensorNetworkCode.network self in
  let h' := snd (run_call self k h) in
  tn = length (nets h) /\
  tn <> n /\
  Forall (fun l => length (tens h) <= l) (net_locs h' tn) /\
  Forall (fun l => l ∉ net_locs h n) (net_locs h' tn).
Proof.
  intros Hwf Hok n h'.
  assert (Hown : Forall (fun l => length (tens h) <= l)
                        (net_locs h' (clone_ref h))).
  { subst h'. set (tn0 := clone_ref h). set (hc := clone_store h n).
    assert (Hc : Forall (fun l => length (tens h) <= l) (net_locs hc tn0)).
    { unfold hc, tn0. rewrite clone_locs. apply Forall_forall.
      intros l Hl. apply elem_of_seq in Hl. lia. }
    assert (Hlen : length (tens h) <= length (tens hc)).
    { unfold hc. simpl. rewrite length_app. lia. }
    destruct k as [indices | ind1 ind2 | ind1 ind2]; simpl.
    - rewrite contract_indices_eq. fold n tn0 hc.
      pose proof (for_each_contract_step_owned _ tn0 indices hc Hlen Hc) as H.
      by destruct (for_each indices (contract_step tn0) hc) as [[[] | e] h1].
    - rewrite fuse_and_contract_indices_eq. cbv zeta. fold n tn0 hc.
      rewrite for_each_reindex. cbn [snd].
      set (hr := mk_heap _ _).
      assert (Hr : Forall (fun l => length (tens h) <= l) (net_locs hr tn0)) by done.
      assert (Hlenr : length (tens h) <= length (tens hr)).
      { unfold hr. simpl. by rewrite rename_pass_length. }
      destruct (present hr tn0 ind1); simpl; [| done]. unfold bind.
      pose proof (contract_ind_owned _ tn0 ind1 hr Hlenr Hr) as H.
      by destruct (TensorNetwork.contract_ind tn0 ind1 hr) as [[[] | e] h1].
    - rewrite contract_two_indices_eq. cbv zeta. fold n tn0 hc.
      destruct (present hc tn0 ind1); simpl; [| done].
      destruct (present hc tn0 ind2); simpl; [| done]. unfold bind.
      pose proof (contract_ind_owned _ tn0 ind1 hc Hlen Hc) as H1.
      destruct (contract_ind_frame (length (tens h)) 0 tn0 ind1 hc Hlen
                  (Nat.le_0_l _)) as [_ Hlen1].
      destruct (TensorNetwork.contract_ind tn0 ind1 hc) as [[[] | e] h1];
        simpl in *; [| done].
      assert (Hlen2 : length (tens h) <= length (tens h1)) by lia.
      pose proof (contract_ind_owned _ tn0 ind2 h1 Hlen2 H1) as H2.
      by destruct (TensorNetwork.contract_ind tn0 ind2 h1) as [[[] | e] h2]. }
  pose proof (run_call_returns_clone self k h Hwf tn Hok) as Htn. subst tn.
  destruct Hwf as (Hn & _ & Hall). fold n in Hn, Hall.
  split; [done |]. split; [unfold clone_ref; lia |]. split; [done |].
  eapply Forall_impl; [exact Hown |]. intros l Hl Hl'. simpl in Hl.
  rewrite Forall_forall in Hall. specialize (Hall _ Hl'). simpl in Hall. lia.
Qed.

Lemma returned_network_is_made_of_new_objects_witness :
  let r := run_call (ex_code [0; 1]) (ContractIndices ["b"%string]) (snd ex_chain) in
  wf_net (snd ex_chain) 0 /\
  fst r = Ok 1 /\
  Forall (fun l => l ∉ net_locs (snd ex_chain) 0) (net_locs (snd r) 1).
Proof.
  intros r.
  assert (Hwf : wf_net (snd ex_chain) (TensorNetworkCode.network (ex_code [0; 1])))
    by solve_wf.
  assert (Hok : fst r = Ok 1) by reflexivity.
  split; [exact Hwf |]. split; [exact Hok |].
  destruct (returned_network_is_made_of_new_objects (ex_code [0; 1])
              (ContractIndices ["b"%string]) (snd ex_chain) 1 Hwf Hok)
    as (_ & _ & _ & Hnew).
  exact Hnew.
Defined.

(** ** [add_tensor] with the other methods *)

Lemma add_tensor_owned n t h :
  wf_net h n ->
  let h' := snd (TensorNetwork.add_tensor n t h) in
  view h' n = view h n ++ [deref h t] /\ wf_net h' n.
Proof.
  intros (Hn & Hnd & Hall) h'. subst h'. rewrite add_tensor_eq. cbn [snd].
  set (h' := mk_heap _ _).
  assert (Hlocs : net_locs h' n = net_locs h n ++ [length (tens h)]).
  { unfold net_locs at 1, h'. simpl. by apply list_lookup_total_insert_eq. }
  split.
  - unfold view. rewrite Hlocs, map_app. simpl. f_equal.
    + apply map_ext_Forall. eapply Forall_impl; [exact Hall |].
      intros l Hl. simpl in Hl. unfold deref, h'. simpl.
      by apply lookup_total_app_l.
    + f_equal. unfold deref at 1, h'. simpl.
      by apply (list_lookup_total_middle (tens h) []).
  - unfold wf_net. rewrite Hlocs. unfold h'. simpl.
    rewrite length_insert, length_app. simpl. split; [done |]. split.
    + apply NoDup_app. split; [done | split; [| apply NoDup_singleton]].
      intros x Hx Hx'. apply list_elem_of_singleton in Hx'. subst.
      rewrite Forall_forall in Hall. specialize (Hall _ Hx). simpl in Hall. lia.
    + apply Forall_app. split.
      * eapply Forall_impl; [exact Hall |]. intros x Hx. simpl in *. lia.
      * apply Forall_singleton. lia.
Qed.

Lemma add_tensor_other n m t h :
  wf_net h m -> m <> n ->
  let h' := snd (TensorNetwork.add_tensor n t h) in
  net_locs h' m = net_locs h m /\ view h' m = view h m /\ wf_net h' m.
Proof.
  intros (Hm & Hnd & Hall) Hne h'. subst h'. rewrite add_tensor_eq. cbn [snd].
  set (h' := mk_heap _ _).
  assert (Hlocs : net_locs h' m = net_locs h m).
  { unfold net_locs, h'. simpl. apply list_lookup_total_insert_ne. congruence. }
  split; [done |]. split.
  - unfold view. rewrite Hlocs. apply map_ext_Forall.
    eapply Forall_impl; [exact Hall |]. intros l Hl. simpl in Hl.
    unfold deref, h'. simpl. by apply lookup_total_app_l.
  - unfold wf_net. rewrite Hlocs. unfold h'. simpl.
    rewrite length_insert, length_app. split; [done |]. split; [done |].
    eapply Forall_impl; [exact Hall |]. intros x Hx. simpl in *. lia.
Qed.

Lemma run_call_result_wf self k h :
  wf_net h (TensorNetworkCode.network self) ->
  wf_net (snd (run_call self k h)) (clone_ref h).
Proof.
  intros Hwf. destruct k as [indices | ind1 ind2 | ind1 ind2]; simpl.
  - by apply contract_indices_outcome.
  - by apply fuse_and_contract_indices_outcome.
  - by apply contract_two_indices_outcome.
Qed.

(** X13. A network returned by a contraction method is out of reach of
    [add_tensor]: adding a tensor to the code object afterwards changes
    neither the tensor collection of the returned network nor any of its
    tensors. *)
Theorem add_tensor_leaves_returned_network self k t h tn :
  wf_net h (TensorNetworkCode.network self) ->
  fst (run_call self k h) = Ok tn ->
  let h1 := snd (run_call self k h) in
  let h2 := snd (TensorNetworkCode.add_tensor self t h1) in
  net_locs h2 tn = net_locs h1 tn /\ view h2 tn = view h1 tn.
Proof.
  intros Hwf Hok h1 h2.
  pose proof (run_call_returns_clone self k h Hwf tn Hok) as Htn. subst tn.
  pose proof (run_call_result_wf self k h Hwf) as Hwf1. fold h1 in Hwf1.
  assert (Hne : clone_ref h <> TensorNetworkCode.network self).
  { destruct Hwf as (Hn & _). unfold clone_ref. lia. }
  destruct (add_tensor_other (TensorNetworkCode.network self) (clone_ref h) t h1
              Hwf1 Hne) as (Hl & Hv & _).
  by split.
Qed.

Lemma add_tensor_leaves_returned_network_witness :
  let k := ContractIndices ["b"%string] in
  let h1 := snd (run_call (ex_code [0; 1]) k (snd ex_chain)) in
  let h2 := snd (TensorNetworkCode.add_tensor (ex_code [0; 1]) 2 h1) in
  wf_net (snd ex_chain) 0 /\
  fst (run_call (ex_code [0; 1]) k (snd ex_chain)) = Ok 1 /\
  view h2 1 = view h1 1.
Proof.
  intros k h1 h2.
  assert (Hwf : wf_net (snd ex_chain) (TensorNetworkCode.network (ex_code [0; 1])))
    by solve_wf.
  assert (Hok : fst (run_call (ex_code [0; 1]) k (snd ex_chain)) = Ok 1)
    by reflexivity.
  split; [exact Hwf |]. split; [exact Hok |].
  destruct (add_tensor_leaves_returned_network (ex_code [0; 1]) k 2 (snd ex_chain) 1
              Hwf Hok) as [_ Hv].
  exact Hv.
Defined.

(** ** The constructor *)

(** X14. [TensorNetworkCode(tensors)] keeps its argument and the structure
    as given, and builds its network from new tensor objects that hold the
    arrays, legs and tags of the caller's tensors in order (for a dict, in
    the order of its values); the caller's objects are not changed, and
    [get_tensors()] returns the new objects. *)
Theorem constructor_copies_the_tensors targ s h :
  let ts := match targ with
            | TensorNetworkCode.TensorDict d => map snd d
            | TensorNetworkCode.TensorList ts => ts
            end in
  let r := TensorNetworkCode.__init__ targ s h in
  Forall (fun l => l < length (tens h)) ts ->
  exists self,
    fst r = Ok self /\
    TensorNetworkCode.tensors self = targ /\
    TensorNetworkCode.structure self = s /\
    TensorNetworkCode.network self = length (nets h) /\
    fst (TensorNetworkCode.get_tensors self (snd r)) =
      Ok (seq (length (tens h)) (length ts)) /\
    view (snd r) (TensorNetworkCode.network self) = map (deref h) ts /\
    extends h (snd r).
Proof.
  intros ts r Hall. subst r.
  unfold TensorNetworkCode.__init__, bind, ret. fold ts.
  destruct (new_fresh ts h) as (Hok & Hlocs & Hv & _ & Hext).
  destruct (TensorNetwork.new ts h) as [r h']. cbn [fst snd] in *. subst r.
  eexists. split; [reflexivity |].
  cbn [fst snd TensorNetworkCode.network TensorNetworkCode.tensors
       TensorNetworkCode.structure].
  split; [done |]. split; [done |]. split; [done |]. split; [| split; [| done]].
  - unfold TensorNetworkCode.get_tensors, TensorNetwork.tensors, inspect.
    cbn [fst TensorNetworkCode.network]. by rewrite Hlocs.
  - rewrite Hv. by apply copies_valid.
Qed.

Lemma constructor_copies_the_tensors_witness :
  let targ := TensorNetworkCode.TensorDict
                [("left"%string, 0); ("right"%string, 1)] in
  Forall (fun l => l < length (tens ex_caller)) [0; 1] /\
  exists self,
    fst (TensorNetworkCode.__init__ targ None ex_caller) = Ok self /\
    view (snd (TensorNetworkCode.__init__ targ None ex_caller))
         (TensorNetworkCode.network self) = [ex_T1; ex_T2].
Proof.
  intros targ.
  assert (Hall : Forall (fun l => l < length (tens ex_caller)) [0; 1])
    by (repeat constructor; simpl; lia).
  split; [exact Hall |].
  destruct (constructor_copies_the_tensors targ None ex_caller Hall)
    as (self & Hok & _ & _ & _ & _ & Hv & _).
  exists self. split; [exact Hok | exact Hv].
Defined.

(** ** The errors of [contract_indices] *)

Lemma contract_views_error indices : forall v e,
  contract_views indices v = Raise e ->
  exists ind, ind ∈ indices /\ e = ValueError (TensorNetworkCode.not_found ind).
Proof.
  induction indices as [|x indices IH]; intros v e; simpl; [done |].
  destruct (existsb (occurs x) v).
  - intros Hrun. destruct (IH _ _ Hrun) as (ind & Hin & ->).
    exists ind. split; [by right | done].
  - intros [= <-]. exists x. split; [by left | done].
Qed.

(** X15. Whatever [contract_indices] raises is its own error for one of
    the labels it was given: because every label is checked just before it
    is contracted, the library's failed lookup never reaches the caller. *)
Theorem contract_indices_raises_only_its_own_error self indices h e :
  wf_net h (TensorNetworkCode.network self) ->
  fst (TensorNetworkCode.contract_indices self indices h) = Raise e ->
  exists ind,
    ind ∈ indices /\ e = ValueError (TensorNetworkCode.not_found ind).
Proof.
  intros Hwf Hraise.
  destruct (contract_indices_outcome self indices h Hwf) as [Hout _].
  destruct (TensorNetworkCode.contract_indices self indices h) as [r h'].
  simpl in *. subst r. simpl in Hout. symmetry in Hout.
  by apply contract_views_error in Hout.
Qed.

Lemma contract_indices_raises_only_its_own_error_witness :
  let e := ValueError "Index 'b' not found in the tensor network." in
  wf_net (snd ex_double) 0 /\
  fst (TensorNetworkCode.contract_indices (ex_code [0; 2]) ["a"; "b"]%string
         (snd ex_double)) = Raise e /\
  exists ind,
    ind ∈ ["a"; "b"]%string /\ e = ValueError (TensorNetworkCode.not_found ind).
Proof.
  intros e.
  assert (Hwf : wf_net (snd ex_double) (TensorNetworkCode.network (ex_code [0; 2])))
    by solve_wf.
  assert (Hraise : fst (TensorNetworkCode.contract_indices (ex_code [0; 2])
                          ["a"; "b"]%string (snd ex_double)) = Raise e)
    by reflexivity.
  split; [exact Hwf |]. split; [exact Hraise |].
  exact (contract_indices_raises_only_its_own_error (ex_code [0; 2])
           ["a"; "b"]%string (snd ex_double) e Hwf Hraise).
Defined.
